(** * Doodle: room lifecycle and round scheduler of the draw-and-guess server

    A shallow embedding of [src/index.ts] (the socket.io game server) and
    the properties of its room registry, roster, drawer rotation, answer
    evaluation, hint generation, timers and message routing.

    Conventions of the embedding.
    - A JavaScript string is the list of its UTF-16 code units.
    - [null] and [undefined] are [None]; truthiness of a nullable string
      ([!x], [x || y], [x && y]) is [truthy].
    - [rooms] and [socketRoomMap] are JavaScript [Map]s whose iteration order
      the server never observes: finite maps.  [room.players] is a plain
      object whose key order is observed by [Object.keys] / [Object.values]:
      an association list in insertion order.  Connection identities are
      issued by the transport (socket.io: twenty characters of a base-64
      alphabet), so they are taken to be neither array indices (which
      [Object.keys] would sort first) nor member names of [Object.prototype].
    - [round], [maxRounds] and [score] are JavaScript numbers holding
      integers; they are modelled by [Z] (exact below 2^53).
    - Handlers run to completion one at a time; each is a computation in the
      small state-and-output monad [M], the output being the list of
      transport calls it made.  Pending [setTimeout] callbacks are part of
      the state and fire through the event [EvTimer]. *)

From Stdlib Require Import ZArith QArith.QArith_base Lia String Ascii.
From stdpp Require Import base option list gmap.

#[local] Open Scope Z_scope.

(** ** JavaScript strings *)

Module Js.

Abbreviation jsstring := (list Z).

(** A Rocq literal of ASCII characters as a JavaScript string. *)
Fixpoint lit (s : String.string) : jsstring :=
  match s with
  | EmptyString => []
  | String c s' => Z.of_N (N_of_ascii c) :: lit s'
  end.

(** [ToBoolean] on [string | null | undefined]: only [null], [undefined]
    and the empty string are falsy. *)
Definition truthy (x : option jsstring) : bool :=
  match x with
  | Some (_ :: _) => true
  | _ => false
  end.

(** [x || y] on strings. *)
Definition or_else (x y : jsstring) : jsstring :=
  if truthy (Some x) then x else y.

(** WhiteSpace and LineTerminator code units, the ones
    [String.prototype.trim] strips. *)
Definition isWhiteSpace (c : Z) : bool :=
  (9 <=? c) && (c <=? 13)
  || (c =? 0x20) || (c =? 0xA0) || (c =? 0x1680)
  || (0x2000 <=? c) && (c <=? 0x200A)
  || (c =? 0x2028) || (c =? 0x2029) || (c =? 0x202F)
  || (c =? 0x205F) || (c =? 0x3000) || (c =? 0xFEFF).

Fixpoint trimStart (s : jsstring) : jsstring :=
  match s with
  | c :: s' => if isWhiteSpace c then trimStart s' else s
  | [] => []
  end.

Definition trimEnd (s : jsstring) : jsstring :=
  rev (trimStart (rev s)).

Definition trim (s : jsstring) : jsstring := trimEnd (trimStart s).

Definition isHighSurrogate (c : Z) : bool := (0xD800 <=? c) && (c <=? 0xDBFF).
Definition isLowSurrogate (c : Z) : bool := (0xDC00 <=? c) && (c <=? 0xDFFF).

(** [Array.from(s)]: the string iterator yields one element per code
    point, a surrogate pair staying together. *)
Fixpoint Array_from (s : jsstring) : list jsstring :=
  match s with
  | [] => []
  | c :: s' =>
      match s' with
      | d :: s'' =>
          if isHighSurrogate c && isLowSurrogate d
          then [c; d] :: Array_from s''
          else [c] :: Array_from s'
      | [] => [[c]]
      end
  end.

(** [ch.charCodeAt(0)] of a non-empty element; [NaN] never arises on the
    elements [Array_from] yields, [-1] stands for it. *)
Definition charCodeAt0 (ch : jsstring) : Z := hd (-1) ch.

(** [parts.join] with the empty separator. *)
Definition join (parts : list jsstring) : jsstring := concat parts.

(** What [toLowerCase] does on a string of ASCII code units; the server's
    [toLowerCase] is a parameter of the model that agrees with it there. *)
Definition asciiLowerUnit (c : Z) : Z :=
  if (0x41 <=? c) && (c <=? 0x5A) then c + 0x20 else c.
Definition asciiLower (s : jsstring) : jsstring := map asciiLowerUnit s.
Definition isAscii (s : jsstring) : Prop := Forall (fun c => 0 <= c < 128) s.

End Js.
Export Js.

(** ** Data model *)

Module Player.
Record t : Type := mk { id : jsstring; nickname : jsstring; score : Z }.

(** [player.score += n], on the record the roster holds. *)
Definition add_score (n : Z) (p : t) : t :=
  mk (id p) (nickname p) (score p + n).
End Player.

(** A plain object used as a map ([Record<string, V>]): own properties in
    insertion order. *)
Module Obj.
Section WithValue.
Context {V : Type}.

Definition t : Type := list (jsstring * V).

(** [o[k]] *)
Fixpoint get (k : jsstring) (o : t) : option V :=
  match o with
  | [] => None
  | (k', v) :: o' => if decide (k' = k) then Some v else get k o'
  end.

(** [o[k] = v]: an existing property keeps its place, a new one goes
    last. *)
Fixpoint set (k : jsstring) (v : V) (o : t) : t :=
  match o with
  | [] => [(k, v)]
  | (k', v') :: o' =>
      if decide (k' = k) then (k', v) :: o' else (k', v') :: set k v o'
  end.

(** [delete o[k]] *)
Fixpoint delete (k : jsstring) (o : t) : t :=
  match o with
  | [] => []
  | (k', v') :: o' =>
      if decide (k' = k) then delete k o' else (k', v') :: delete k o'
  end.

(** In-place mutation of the value stored under [k], if any. *)
Fixpoint alter (f : V -> V) (k : jsstring) (o : t) : t :=
  match o with
  | [] => []
  | (k', v') :: o' =>
      if decide (k' = k) then (k', f v') :: o' else (k', v') :: alter f k o'
  end.

(** [Object.keys(o)] and [Object.values(o)] *)
Definition keys (o : t) : list jsstring := map fst o.
Definition values (o : t) : list V := map snd o.
End WithValue.
Arguments t : clear implicits.
End Obj.

(** Handle of a pending [setTimeout]. *)
Definition TimerHandle : Type := nat.

Module Room.
Record t : Type := mk {
  id : jsstring;
  players : Obj.t Player.t;
  drawerId : option jsstring;
  currentWord : option jsstring;
  round : Z;
  maxRounds : Z;
  category : jsstring;
  roundActive : bool;
  timerId : option TimerHandle;
  hintTimerId : option TimerHandle;
}.

Definition set_players (f : Obj.t Player.t -> Obj.t Player.t) (r : t) : t :=
  mk (id r) (f (players r)) (drawerId r) (currentWord r) (round r)
     (maxRounds r) (category r) (roundActive r) (timerId r) (hintTimerId r).
Definition set_drawerId (d : option jsstring) (r : t) : t :=
  mk (id r) (players r) d (currentWord r) (round r)
     (maxRounds r) (category r) (roundActive r) (timerId r) (hintTimerId r).
Definition set_currentWord (w : option jsstring) (r : t) : t :=
  mk (id r) (players r) (drawerId r) w (round r)
     (maxRounds r) (category r) (roundActive r) (timerId r) (hintTimerId r).
Definition set_round (n : Z) (r : t) : t :=
  mk (id r) (players r) (drawerId r) (currentWord r) n
     (maxRounds r) (category r) (roundActive r) (timerId r) (hintTimerId r).
Definition set_category (c : jsstring) (r : t) : t :=
  mk (id r) (players r) (drawerId r) (currentWord r) (round r)
     (maxRounds r) c (roundActive r) (timerId r) (hintTimerId r).
Definition set_roundActive (b : bool) (r : t) : t :=
  mk (id r) (players r) (drawerId r) (currentWord r) (round r)
     (maxRounds r) (category r) b (timerId r) (hintTimerId r).
Definition set_timerId (h : option TimerHandle) (r : t) : t :=
  mk (id r) (players r) (drawerId r) (currentWord r) (round r)
     (maxRounds r) (category r) (roundActive r) h (hintTimerId r).
Definition set_hintTimerId (h : option TimerHandle) (r : t) : t :=
  mk (id r) (players r) (drawerId r) (currentWord r) (round r)
     (maxRounds r) (category r) (roundActive r) (timerId r) h.
End Room.

(** ** Constants *)

Definition WORD_POOL : Obj.t (list jsstring) :=
  [ (lit "food",
      [ [0xC0AC; 0xACFC]; [0xBC14; 0xB098; 0xB098]; [0xD53C; 0xC790];
        [0xD584; 0xBC84; 0xAC70] ]);
    (lit "animal",
      [ [0xACE0; 0xC591; 0xC774]; [0xAC15; 0xC544; 0xC9C0] ]);
    (lit "object",
      [ [0xC9D1]; [0xC790; 0xB3D9; 0xCC28]; [0xBCC4]; [0xAD6C; 0xB984];
        [0xCEF5]; [0xCC45] ]) ].

(** [WORD_POOL] is an object literal, so [WORD_POOL[category]] also finds
    the members it inherits from [Object.prototype]; none of them is [null]
    or [undefined], so [??] does not fall back for these keys. *)
Definition Object_prototype_names : list jsstring :=
  [ lit "constructor"; lit "__defineGetter__"; lit "__defineSetter__";
    lit "hasOwnProperty"; lit "__lookupGetter__"; lit "__lookupSetter__";
    lit "isPrototypeOf"; lit "propertyIsEnumerable"; lit "toString";
    lit "valueOf"; lit "__proto__"; lit "toLocaleString" ].

Definition ROUND_DURATION_SEC : Z := 40.
Definition ROUND_DURATION_MS : Z := ROUND_DURATION_SEC * 1000.

Definition CHO : list jsstring :=
  [ [0x3131]; [0x3132]; [0x3134]; [0x3137]; [0x3138]; [0x3139]; [0x3141];
    [0x3142]; [0x3143]; [0x3145]; [0x3146]; [0x3147]; [0x3148]; [0x3149];
    [0x314A]; [0x314B]; [0x314C]; [0x314D]; [0x314E] ].

(** ** Pure helpers *)

Definition getPlayerList (room : Room.t) : list Player.t :=
  Obj.values (Room.players room).

(** The callback of [makeChosungHint]'s [map], on one element of
    [Array.from(word)]. *)
Definition chosungOf (ch : jsstring) : jsstring :=
  let code := charCodeAt0 ch in
  if (code <? 0xAC00) || (code >? 0xD7A3) then ch
  else
    let base := code - 0xAC00 in
    let choIndex := base / (21 * 28) in
    match CHO !! Z.to_nat choIndex with
    | Some sym => sym
    | None => ch
    end.

Definition makeChosungHint (word : jsstring) : jsstring :=
  Js.join (map chosungOf (Array_from word)).

(** [Math.floor(Math.random() * n)]: [Math.random()] is [k / 2^53] for the
    53 random bits [k] the engine drew; the product is below [n]. *)
Definition randomIndex (k : Z) (n : nat) : nat :=
  Z.to_nat ((k mod 2 ^ 53) * Z.of_nat n / 2 ^ 53).

(** [getRandomWord]; [None] is the [undefined] that indexing an inherited
    member (a function, or [Object.prototype] itself) yields. *)
Definition getRandomWord (category : jsstring) (k : Z) : option jsstring :=
  match Obj.get category WORD_POOL with
  | Some list => list !! randomIndex k (length list)
  | None =>
      if decide (category ∈ Object_prototype_names) then None
      else
        match Obj.get (lit "food") WORD_POOL with
        | Some list => list !! randomIndex k (length list)
        | None => None
        end
  end.

(** [ids.indexOf(x)], [None] for [-1]. *)
Fixpoint indexOf (x : jsstring) (ids : list jsstring) : option nat :=
  match ids with
  | [] => None
  | y :: ids' => if decide (y = x) then Some O else S <$> indexOf x ids'
  end.

Definition chooseNextDrawerId (room : Room.t) : option jsstring :=
  let ids := Obj.keys (Room.players room) in
  match ids with
  | [] => None
  | first :: _ =>
      if negb (truthy (Room.drawerId room)) then Some first
      else
        match Room.drawerId room with
        | None => Some first
        | Some d =>
            match indexOf d ids with
            | None => Some first
            | Some idx =>
                if decide (idx = (length ids - 1)%nat) then Some first
                else ids !! (idx + 1)%nat
            end
        end
  end.

(** ** Transport calls and server state *)

Record Stroke : Type := mkStroke {
  x0 : Q; y0 : Q; x1 : Q; y1 : Q; color : jsstring; lineWidth : Q;
}.

(** The outbound events, by name, with their payloads. *)
Inductive Payload : Type :=
| roomState (players : list Player.t) (drawerId : option jsstring)
    (round maxRounds : Z) (category : jsstring) (roundActive : bool)
| systemMessage (message : jsstring)
| roundStarted (round maxRounds : Z) (drawerId : option jsstring)
    (roundDurationSec : Z)
| wordForDrawer (word : jsstring)
| hintUpdated (hint : jsstring)
| roundEnded (reason : jsstring) (round : Z)
| clearCanvas
| answerResult (correct : bool) (playerId nickname word : jsstring)
    (newScore : Z)
| chat (nickname message : jsstring) (correct : bool)
| gameEnded (players : list Player.t)
| draw (stroke : Stroke).

Inductive Effect : Type :=
| io_to_emit (target : jsstring) (p : Payload)
    (* io.to(target).emit(...) *)
| socket_to_emit (sender target : jsstring) (p : Payload)
    (* socket.to(target).emit(...): the group but the sender *)
| socket_join (sid roomId : jsstring)
| socket_leave (sid roomId : jsstring).

(** The three closures the server hands to [setTimeout]; each captures
    only [roomId]. *)
Inductive Callback : Type :=
| HintCallback (roomId : jsstring)
| TimeoutCallback (roomId : jsstring)
| CooldownCallback (roomId : jsstring).

Record Timer : Type := mkTimer {
  handle : TimerHandle; delayMs : Z; callback : Callback;
}.

Record State : Type := mkState {
  rooms : gmap jsstring Room.t;
  socketRoomMap : gmap jsstring jsstring;
  timers : list Timer;          (* scheduled and not yet fired or cleared *)
  nextHandle : TimerHandle;     (* the next handle [setTimeout] returns *)
}.

Definition initialState : State := mkState ∅ ∅ [] 0%nat.

(** ** The handler monad *)

Definition M (A : Type) : Type := State -> A * State * list Effect.

Definition ret {A} (a : A) : M A := fun s => (a, s, []).

Definition bind {A B} (m : M A) (f : A -> M B) : M B :=
  fun s =>
    let '(a, s1, out1) := m s in
    let '(b, s2, out2) := f a s1 in
    (b, s2, out1 ++ out2).

Declare Scope handler_scope.
Delimit Scope handler_scope with handler.
Notation "x <- m ;; k" := (bind m (fun x => k))
  (at level 100, m at next level, right associativity) : handler_scope.
Notation "m ;; k" := (bind m (fun _ => k))
  (at level 100, right associativity) : handler_scope.
#[local] Open Scope handler_scope.

Definition exec {A} (m : M A) (s : State) : State := (m s).1.2.
Definition output {A} (m : M A) (s : State) : list Effect := (m s).2.

Definition skip : M unit := ret tt.

Definition emit (target : jsstring) (p : Payload) : M unit :=
  fun s => (tt, s, [io_to_emit target p]).

Definition transport (e : Effect) : M unit := fun s => (tt, s, [e]).

Definition rooms_get (roomId : jsstring) : M (option Room.t) :=
  fun s => (rooms s !! roomId, s, []).

(** Writes the fields of the room object registered under [roomId]: the
    handlers hold a reference to that object, so what they assign is what
    [rooms.get(roomId)] returns from then on. *)
Definition store (roomId : jsstring) (room : Room.t) : M unit :=
  fun s =>
    (tt, mkState (<[roomId := room]> (rooms s)) (socketRoomMap s)
           (timers s) (nextHandle s), []).

(** An assignment through a reference taken earlier in the handler. *)
Definition mutate (roomId : jsstring) (f : Room.t -> Room.t) : M unit :=
  room <- rooms_get roomId ;;
  match room with
  | Some room => store roomId (f room)
  | None => skip
  end.

Definition rooms_delete (roomId : jsstring) : M unit :=
  fun s =>
    (tt, mkState (delete roomId (rooms s)) (socketRoomMap s)
           (timers s) (nextHandle s), []).

Definition socketRoomMap_get (sid : jsstring) : M (option jsstring) :=
  fun s => (socketRoomMap s !! sid, s, []).

Definition socketRoomMap_set (sid roomId : jsstring) : M unit :=
  fun s =>
    (tt, mkState (rooms s) (<[sid := roomId]> (socketRoomMap s))
           (timers s) (nextHandle s), []).

Definition socketRoomMap_delete (sid : jsstring) : M unit :=
  fun s =>
    (tt, mkState (rooms s) (delete sid (socketRoomMap s))
           (timers s) (nextHandle s), []).

Definition setTimeout (cb : Callback) (ms : Z) : M TimerHandle :=
  fun s =>
    (nextHandle s,
     mkState (rooms s) (socketRoomMap s)
       (timers s ++ [mkTimer (nextHandle s) ms cb]) (S (nextHandle s)), []).

Definition cancel (h : TimerHandle) (ts : list Timer) : list Timer :=
  filter (fun t => handle t ≠ h) ts.

Definition clearTimeout (h : TimerHandle) : M unit :=
  fun s =>
    (tt, mkState (rooms s) (socketRoomMap s) (cancel h (timers s))
           (nextHandle s), []).

(** The event loop takes a due timer off the pending list and runs its
    callback; [None] when [h] is not pending. *)
Definition takeTimer (h : TimerHandle) : M (option Callback) :=
  fun s =>
    (callback <$> head (filter (fun t => handle t = h) (timers s)),
     mkState (rooms s) (socketRoomMap s) (cancel h (timers s))
       (nextHandle s), []).

(** ** String literals of the server *)

(** "익명" *)
Definition anonymousNick : jsstring := [0xC775; 0xBA85].
(** "알 수 없음" *)
Definition unknownNick : jsstring := [0xC54C; 0x20; 0xC218; 0x20; 0xC5C6; 0xC74C].
(** " 님이 입장했습니다." *)
Definition joinedSuffix : jsstring :=
  [0x20; 0xB2D8; 0xC774; 0x20; 0xC785; 0xC7A5; 0xD588; 0xC2B5; 0xB2C8; 0xB2E4; 0x2E].
(** " 님이 퇴장했습니다." *)
Definition leftSuffix : jsstring :=
  [0x20; 0xB2D8; 0xC774; 0x20; 0xD1F4; 0xC7A5; 0xD588; 0xC2B5; 0xB2C8; 0xB2E4; 0x2E].
(** "게임을 시작합니다!" *)
Definition gameStartsText : jsstring :=
  [0xAC8C; 0xC784; 0xC744; 0x20; 0xC2DC; 0xC791; 0xD569; 0xB2C8; 0xB2E4; 0x21].
(** "시간이 종료되었습니다." *)
Definition timeIsUpText : jsstring :=
  [0xC2DC; 0xAC04; 0xC774; 0x20; 0xC885; 0xB8CC; 0xB418; 0xC5C8; 0xC2B5; 0xB2C8;
   0xB2E4; 0x2E].
(** " 님이 정답을 맞췄습니다!" *)
Definition guessedSuffix : jsstring :=
  [0x20; 0xB2D8; 0xC774; 0x20; 0xC815; 0xB2F5; 0xC744; 0x20; 0xB9DE; 0xCDC4;
   0xC2B5; 0xB2C8; 0xB2E4; 0x21].
(** "출제자가 나갔습니다. 다음 라운드로 넘어갑니다." *)
Definition drawerLeftText : jsstring :=
  [0xCD9C; 0xC81C; 0xC790; 0xAC00; 0x20; 0xB098; 0xAC14; 0xC2B5; 0xB2C8; 0xB2E4;
   0x2E; 0x20; 0xB2E4; 0xC74C; 0x20; 0xB77C; 0xC6B4; 0xB4DC; 0xB85C; 0x20;
   0xB118; 0xC5B4; 0xAC11; 0xB2C8; 0xB2E4; 0x2E].

(** The cooldown between a round's end and the next [startRound]. *)
Definition COOLDOWN_MS : Z := 3000.

(** ** Server functions *)

Definition newRoom (roomId : jsstring) : Room.t :=
  Room.mk roomId [] None None 0 5 (lit "food") false None None.

Definition getOrCreateRoom (roomId : jsstring) : M Room.t :=
  room <- rooms_get roomId ;;
  match room with
  | Some room => ret room
  | None => store roomId (newRoom roomId) ;; ret (newRoom roomId)
  end.

(** [clearRoomTimers(room)], on the room registered under [roomId]; returns
    the room as it is afterwards. *)
Definition clearRoomTimers (roomId : jsstring) (room : Room.t) : M Room.t :=
  room <- match Room.timerId room with
          | Some h =>
              clearTimeout h ;;
              store roomId (Room.set_timerId None room) ;;
              ret (Room.set_timerId None room)
          | None => ret room
          end ;;
  match Room.hintTimerId room with
  | Some h =>
      clearTimeout h ;;
      store roomId (Room.set_hintTimerId None room) ;;
      ret (Room.set_hintTimerId None room)
  | None => ret room
  end.

Definition roomStateOf (room : Room.t) : Payload :=
  roomState (getPlayerList room) (Room.drawerId room) (Room.round room)
    (Room.maxRounds room) (Room.category room) (Room.roundActive room).

Definition broadcastRoomState (roomId : jsstring) : M unit :=
  room <- rooms_get roomId ;;
  match room with
  | None => skip
  | Some room => emit roomId (roomStateOf room)
  end.

(** [startRound(roomId)]; [k] are the random bits [getRandomWord] draws. *)
Definition startRound (roomId : jsstring) (k : Z) : M unit :=
  room <- rooms_get roomId ;;
  match room with
  | None => skip
  | Some room =>
      if decide (length (Obj.keys (Room.players room)) = 0%nat) then skip
      else
        room <- clearRoomTimers roomId room ;;
        let room := Room.set_round (Room.round room + 1) room in
        if Room.round room >? Room.maxRounds room then
          let room :=
            Room.set_drawerId None
              (Room.set_currentWord None (Room.set_roundActive false room)) in
          store roomId room ;;
          emit roomId (gameEnded (getPlayerList room)) ;;
          emit roomId clearCanvas ;;
          emit roomId (hintUpdated []) ;;
          broadcastRoomState roomId
        else
          let nextDrawerId := chooseNextDrawerId room in
          let room := Room.set_drawerId nextDrawerId room in
          let room :=
            Room.set_currentWord (getRandomWord (Room.category room) k) room in
          let room := Room.set_roundActive true room in
          store roomId room ;;
          emit roomId clearCanvas ;;
          emit roomId (hintUpdated []) ;;
          emit roomId
            (roundStarted (Room.round room) (Room.maxRounds room)
               (Room.drawerId room) ROUND_DURATION_SEC) ;;
          match Room.drawerId room, Room.currentWord room with
          | Some (c :: d), Some (c' :: w) =>
              emit (c :: d) (wordForDrawer (c' :: w))
          | _, _ => skip
          end ;;
          broadcastRoomState roomId ;;
          h <- setTimeout (HintCallback roomId) (ROUND_DURATION_MS / 2) ;;
          let room := Room.set_hintTimerId (Some h) room in
          store roomId room ;;
          h <- setTimeout (TimeoutCallback roomId) ROUND_DURATION_MS ;;
          let room := Room.set_timerId (Some h) room in
          store roomId room
  end.

(** The body of the hint timer. *)
Definition hintCallback (roomId : jsstring) : M unit :=
  r <- rooms_get roomId ;;
  match r with
  | Some r =>
      match Room.roundActive r, Room.currentWord r with
      | true, Some (c :: w) => emit roomId (hintUpdated (makeChosungHint (c :: w)))
      | _, _ => skip
      end
  | None => skip
  end.

(** The body of the round timer. *)
Definition timeoutCallback (roomId : jsstring) : M unit :=
  r <- rooms_get roomId ;;
  match r with
  | Some r =>
      if Room.roundActive r then
        emit roomId (roundEnded timeIsUpText (Room.round r)) ;;
        emit roomId clearCanvas ;;
        emit roomId (hintUpdated []) ;;
        store roomId (Room.set_roundActive false r) ;;
        broadcastRoomState roomId ;;
        _ <- setTimeout (CooldownCallback roomId) COOLDOWN_MS ;;
        skip
      else skip
  | None => skip
  end.

Definition runCallback (cb : Callback) (k : Z) : M unit :=
  match cb with
  | HintCallback roomId => hintCallback roomId
  | TimeoutCallback roomId => timeoutCallback roomId
  | CooldownCallback roomId => startRound roomId k
  end.

(** A pending timer comes due. *)
Definition fireTimer (h : TimerHandle) (k : Z) : M unit :=
  cb <- takeTimer h ;;
  match cb with
  | Some cb => runCallback cb k
  | None => skip
  end.

(** ** Socket event handlers

    [sid] is [socket.id] of the connection the event arrived on. *)

(** [joinRoom]; [randomId] is what
    [Math.random().toString(36).slice(2, 8)] evaluates to. *)
Definition joinRoom (sid roomId nickname randomId : jsstring) : M unit :=
  let trimmedRoomId := or_else (trim roomId) randomId in
  let trimmedNick := or_else (trim nickname) anonymousNick in
  _ <- getOrCreateRoom trimmedRoomId ;;
  prevRoomId <- socketRoomMap_get sid ;;
  match prevRoomId with
  | Some (c :: p) =>
      prevRoom <- rooms_get (c :: p) ;;
      match prevRoom with
      | Some prevRoom =>
          transport (socket_leave sid (c :: p)) ;;
          store (c :: p) (Room.set_players (Obj.delete sid) prevRoom) ;;
          broadcastRoomState (c :: p)
      | None => skip
      end
  | _ => skip
  end ;;
  transport (socket_join sid trimmedRoomId) ;;
  socketRoomMap_set sid trimmedRoomId ;;
  (* [room] is the object [getOrCreateRoom] returned, the previous room
     itself when the connection rejoins the room it is in *)
  mutate trimmedRoomId
    (Room.set_players (Obj.set sid (Player.mk sid trimmedNick 0))) ;;
  emit trimmedRoomId (systemMessage (trimmedNick ++ joinedSuffix)) ;;
  broadcastRoomState trimmedRoomId.

Definition setCategory (sid cat : jsstring) : M unit :=
  roomId <- socketRoomMap_get sid ;;
  match roomId with
  | Some (c :: r) =>
      let roomId := c :: r in
      room <- rooms_get roomId ;;
      match room with
      | Some room =>
          store roomId (Room.set_category (or_else cat (lit "food")) room) ;;
          broadcastRoomState roomId
      | None => skip
      end
  | _ => skip
  end.

Definition startGame (sid : jsstring) (k : Z) : M unit :=
  roomId <- socketRoomMap_get sid ;;
  match roomId with
  | Some (c :: r) =>
      let roomId := c :: r in
      room <- getOrCreateRoom roomId ;;
      if Room.roundActive room then skip
      else
        store roomId
          (Room.set_drawerId None
             (Room.set_currentWord None (Room.set_round 0 room))) ;;
        emit roomId (systemMessage gameStartsText) ;;
        startRound roomId k
  | _ => skip
  end.

Definition drawRelay (sid roomId : jsstring) (stroke : Stroke) : M unit :=
  transport (socket_to_emit sid roomId (draw stroke)).

Definition clearCanvasRelay (sid roomId : jsstring) : M unit :=
  transport (socket_to_emit sid roomId clearCanvas).

Definition chatMessage (sid message : jsstring) : M unit :=
  roomId <- socketRoomMap_get sid ;;
  match roomId with
  | Some (c :: r) =>
      let roomId := c :: r in
      room <- rooms_get roomId ;;
      match room with
      | Some room =>
          match Obj.get sid (Room.players room) with
          | Some player => emit roomId (chat (Player.nickname player) message false)
          | None => skip
          end
      | None => skip
      end
  | _ => skip
  end.

Definition disconnect (sid : jsstring) : M unit :=
  roomId <- socketRoomMap_get sid ;;
  match roomId with
  | Some (c :: r) =>
      let roomId := c :: r in
      room <- rooms_get roomId ;;
      match room with
      | Some room =>
          let nickname :=
            match Obj.get sid (Room.players room) with
            | Some player => Player.nickname player
            | None => unknownNick
            end in
          let room := Room.set_players (Obj.delete sid) room in
          store roomId room ;;
          socketRoomMap_delete sid ;;
          emit roomId (systemMessage (nickname ++ leftSuffix)) ;;
          if decide (length (Obj.keys (Room.players room)) = 0%nat) then
            rooms_delete roomId
          else if bool_decide (Room.drawerId room = Some sid)
                  && Room.roundActive room then
            store roomId (Room.set_roundActive false room) ;;
            emit roomId (roundEnded drawerLeftText (Room.round room)) ;;
            emit roomId clearCanvas ;;
            emit roomId (hintUpdated []) ;;
            _ <- setTimeout (CooldownCallback roomId) COOLDOWN_MS ;;
            skip
          else broadcastRoomState roomId
      | None => skip
      end
  | _ => skip
  end.

Section Server.

(** [String.prototype.toLowerCase], the one library function of the
    server that has no finite description here. *)
Variable toLowerCase : jsstring -> jsstring.

Definition answer (sid message : jsstring) : M unit :=
  roomId <- socketRoomMap_get sid ;;
  match roomId with
  | Some (c :: r) =>
      let roomId := c :: r in
      room <- rooms_get roomId ;;
      match room with
      | Some room =>
          match Obj.get sid (Room.players room) with
          | Some player =>
              let text := trim message in
              if negb (truthy (Some text)) then skip
              else
                match Room.roundActive room, Room.currentWord room with
                | true, Some (c' :: w) =>
                    let currentWord := c' :: w in
                    if bool_decide (Room.drawerId room = Some sid) then
                      emit roomId (chat (Player.nickname player) text false)
                    else
                      let normalizedInput := toLowerCase text in
                      let normalizedAnswer := toLowerCase currentWord in
                      if bool_decide (normalizedInput = normalizedAnswer) then
                        let player := Player.add_score 10 player in
                        let room :=
                          Room.set_players
                            (Obj.alter (Player.add_score 10) sid) room in
                        store roomId room ;;
                        emit roomId
                          (answerResult true (Player.id player)
                             (Player.nickname player) currentWord
                             (Player.score player)) ;;
                        emit roomId
                          (roundEnded (Player.nickname player ++ guessedSuffix)
                             (Room.round room)) ;;
                        emit roomId clearCanvas ;;
                        emit roomId (hintUpdated []) ;;
                        store roomId (Room.set_roundActive false room) ;;
                        broadcastRoomState roomId ;;
                        _ <- setTimeout (CooldownCallback roomId) COOLDOWN_MS ;;
                        skip
                      else
                        emit roomId (chat (Player.nickname player) text false) ;;
                        broadcastRoomState roomId
                | _, _ =>
                    emit roomId (chat (Player.nickname player) text false)
                end
          | None => skip
          end
      | None => skip
      end
  | _ => skip
  end.

(** ** The event loop *)

Inductive Event : Type :=
| EvJoinRoom (sid roomId nickname randomId : jsstring)
| EvSetCategory (sid cat : jsstring)
| EvStartGame (sid : jsstring) (k : Z)
| EvDraw (sid roomId : jsstring) (stroke : Stroke)
| EvClearCanvas (sid roomId : jsstring)
| EvAnswer (sid message : jsstring)
| EvChatMessage (sid message : jsstring)
| EvDisconnect (sid : jsstring)
| EvTimer (h : TimerHandle) (k : Z).

Definition handle_event (e : Event) : M unit :=
  match e with
  | EvJoinRoom sid roomId nickname randomId =>
      joinRoom sid roomId nickname randomId
  | EvSetCategory sid cat => setCategory sid cat
  | EvStartGame sid k => startGame sid k
  | EvDraw sid roomId stroke => drawRelay sid roomId stroke
  | EvClearCanvas sid roomId => clearCanvasRelay sid roomId
  | EvAnswer sid message => answer sid message
  | EvChatMessage sid message => chatMessage sid message
  | EvDisconnect sid => disconnect sid
  | EvTimer h k => fireTimer h k
  end.

(** Handlers run one after the other, each to completion. *)
Fixpoint run (hs : list (M unit)) : M unit :=
  match hs with
  | [] => skip
  | h :: hs' => h ;; run hs'
  end.

(** States the server can be in, the events of the run being restricted
    by [allowed]. *)
Inductive reachable_by (allowed : State -> Event -> Prop) : State -> Prop :=
| reachable_init : reachable_by allowed initialState
| reachable_step s e :
    reachable_by allowed s -> allowed s e ->
    reachable_by allowed (exec (handle_event e) s).

Definition reachable : State -> Prop := reachable_by (fun _ _ => True).

End Server.

(** * Vocabulary of the properties *)

(** ** Hints *)

(** The hint as the design words it: per character, a syllable of the
    block U+AC00..U+D7A3 becomes the table entry at
    floor((code - 0xAC00) / 588), anything else stays. *)
Definition inSyllableBlock (c : Z) : bool := (0xAC00 <=? c) && (c <=? 0xD7A3).

Definition leadingConsonantIndex (c : Z) : nat := Z.to_nat ((c - 0xAC00) / 588).

Definition hintOfUnit (c : Z) : jsstring :=
  if inSyllableBlock c then nth (leadingConsonantIndex c) CHO [] else [c].

Definition hintSpec (word : jsstring) : jsstring :=
  concat (map hintOfUnit word).

(** ** Rotation over rounds *)



(** ** Scores *)

Definition score_ok (p : Player.t) : Prop :=
  exists n, 0 <= n /\ Player.score p = 10 * n.

Definition room_scores_ok (room : Room.t) : Prop :=
  Forall score_ok (Obj.values (Room.players room)).

Definition scores_ok (s : State) : Prop :=
  map_Forall (fun _ room => room_scores_ok room) (rooms s).

(** What one event does to the record of connection [sid] in a room:
    [after] is the record once the handler is done, [before] the one it
    found. *)
Definition score_change (e : Event) (sid : jsstring)
    (before : option Player.t) (after : Player.t) : Prop :=
  ((exists roomId nickname randomId, e = EvJoinRoom sid roomId nickname randomId)
   /\ Player.score after = 0)
  \/ exists p, before = Some p
       /\ (Player.score after = Player.score p
           \/ ((exists message, e = EvAnswer sid message)
               /\ Player.score after = Player.score p + 10)).

Definition lookup_player (s : State) (roomId sid : jsstring) : option Player.t :=
  match rooms s !! roomId with
  | Some room => Obj.get sid (Room.players room)
  | None => None
  end.

(** ** Game over and timers *)

(** [clearTimeout] of an optional handle, as [clearRoomTimers] guards it. *)
Definition cancelIfSet (h : option TimerHandle) (ts : list Timer) : list Timer :=
  match h with
  | Some h => cancel h ts
  | None => ts
  end.

(** A room whose game has ended: the counter is past [maxRounds] and no
    round is active. *)
Definition gameOver (room : Room.t) : Prop :=
  Room.round room > Room.maxRounds room /\ Room.roundActive room = false.

(** The events that restart the game of [roomId]: [startGame] from a
    connection bound to it. *)
Definition restarts (roomId : jsstring) (s : State) (e : Event) : Prop :=
  exists sid k, e = EvStartGame sid k /\ socketRoomMap s !! sid = Some roomId.

(** The room after the game-over branch of [startRound]. *)
Definition endedRoom (room : Room.t) : Room.t :=
  Room.mk (Room.id room) (Room.players room) None None (Room.round room + 1)
    (Room.maxRounds room) (Room.category room) false None None.

Definition callbackRoom (cb : Callback) : jsstring :=
  match cb with
  | HintCallback roomId | TimeoutCallback roomId | CooldownCallback roomId =>
      roomId
  end.

(** The callback [EvTimer h] runs, if [h] is pending. *)
Definition pendingCallback (h : TimerHandle) (s : State) : option Callback :=
  callback <$> head (filter (fun t => handle t = h) (timers s)).

(** ** Connections and rooms of the examples *)

Definition clientA : jsstring := lit "sockA".
Definition clientB : jsstring := lit "sockB".
Definition roomR1 : jsstring := lit "r1".
Definition roomR2 : jsstring := lit "r2".

(** ** Rounds *)

(** The events under which the round invariant is kept.  Two are left
    out: a [joinRoom] by which the drawer of an active round moves to
    another room (the join only deletes the player from the room left), and
    a [setCategory] to a member name of [Object.prototype] (whose lookup in
    [WORD_POOL] is not a word list). *)
Definition within_design (s : State) (e : Event) : Prop :=
  match e with
  | EvJoinRoom sid roomId nickname randomId =>
      forall prev room,
        socketRoomMap s !! sid = Some prev -> prev <> [] ->
        rooms s !! prev = Some room ->
        Room.roundActive room = true -> Room.drawerId room = Some sid ->
        prev = or_else (trim roomId) randomId
  | EvSetCategory sid cat => cat ∉ Object_prototype_names
  | _ => True
  end.

Definition round_ok (room : Room.t) : Prop :=
  (Room.category room ∉ Object_prototype_names)
  /\ (Room.roundActive room = true ->
      (exists w, Room.currentWord room = Some w /\ w <> [])
      /\ exists d, Room.drawerId room = Some d
                   /\ d ∈ Obj.keys (Room.players room)).

Definition rounds_ok (s : State) : Prop :=
  map_Forall (fun _ room => round_ok room) (rooms s).

(** Whatever the events, a room with an active round has some drawer set. *)
Definition drawer_set (room : Room.t) : Prop :=
  Room.roundActive room = true -> exists d, Room.drawerId room = Some d.

Definition drawers_set (s : State) : Prop :=
  map_Forall (fun _ room => drawer_set room) (rooms s).

(** ** Sessions and missing references *)

Definition member_of (sid : jsstring) (room : option Room.t) : Prop :=
  match room with
  | Some room => sid ∈ Obj.keys (Room.players room)
  | None => False
  end.

(** A bound connection is a player of a registered room. *)
Definition sessions_ok (s : State) : Prop :=
  forall sid roomId, socketRoomMap s !! sid = Some roomId ->
    member_of sid (rooms s !! roomId).

(** What an operation refers to is missing: the connection has no session
    binding, or the room it is bound to is not registered, or that room has
    no record for it; for a timer, the room of its callback is not
    registered. *)
Definition unbound (sid : jsstring) (s : State) : Prop :=
  match socketRoomMap s !! sid with
  | None => True
  | Some roomId =>
      match rooms s !! roomId with
      | None => True
      | Some room => Obj.get sid (Room.players room) = None
      end
  end.

Definition dangling (s : State) (e : Event) : Prop :=
  match e with
  | EvSetCategory sid _ | EvStartGame sid _ | EvAnswer sid _
  | EvChatMessage sid _ | EvDisconnect sid => unbound sid s
  | EvTimer h _ =>
      exists cb, pendingCallback h s = Some cb
                 /\ rooms s !! callbackRoom cb = None
  | EvJoinRoom _ _ _ _ | EvDraw _ _ _ | EvClearCanvas _ _ => False
  end.

(** The state after a no-op: the same, a fired timer being no longer
    pending. *)
Definition settled (e : Event) (s : State) : State :=
  match e with
  | EvTimer h _ =>
      mkState (rooms s) (socketRoomMap s) (cancel h (timers s)) (nextHandle s)
  | _ => s
  end.

(** The connection has no session binding, or is bound to a room that is
    not registered. *)
Definition roomless (sid : jsstring) (s : State) : Prop :=
  match socketRoomMap s !! sid with
  | None => True
  | Some roomId => rooms s !! roomId = None
  end.

(** ** Example runs *)

(** Alice and Bob join room r1 and Alice starts the game: round 1, Alice
    draws the first word of the default category. *)
Definition demoEvents : list Event :=
  [ EvJoinRoom clientA roomR1 (lit "Alice") [];
    EvJoinRoom clientB roomR1 (lit " Bob ") [];
    EvStartGame clientA 0 ].

Definition runEvents (toLowerCase : jsstring -> jsstring)
    (es : list Event) (s : State) : State :=
  fold_left (fun s e => exec (handle_event toLowerCase e) s) es s.

Definition demoState : State := runEvents asciiLower demoEvents initialState.

Definition demoPlayers : Obj.t Player.t :=
  [ (clientA, Player.mk clientA (lit "Alice") 0);
    (clientB, Player.mk clientB (lit "Bob") 0) ].

Definition demoRoom : Room.t :=
  Room.mk roomR1 demoPlayers (Some clientA) (Some [0xC0AC; 0xACFC]) 1 5
    (lit "food") true (Some 1%nat) (Some 0%nat).

(** Bob's guess: the word, padded with blanks. *)
Definition demoGuess : jsstring := [0x20; 0xC0AC; 0xACFC; 0x20].

Definition demoStateGuessed : State :=
  exec (handle_event asciiLower (EvAnswer clientB demoGuess)) demoState.

(** Alice alone in r1 with a game started, about to disconnect. *)
Definition loneState : State :=
  runEvents asciiLower
    [ EvJoinRoom clientA roomR1 (lit "Alice") []; EvStartGame clientA 0 ]
    initialState.

Definition loneRoom : Room.t :=
  Room.mk roomR1 [(clientA, Player.mk clientA (lit "Alice") 0)]
    (Some clientA) (Some [0xC0AC; 0xACFC]) 1 5 (lit "food") true
    (Some 1%nat) (Some 0%nat).

(** A roster of three. *)
Definition clientC : jsstring := lit "sockC".


(** Round 5 of 5 has ended in r1; the cooldown timer fires. *)
Definition finalPlayers : Obj.t Player.t :=
  [ (clientA, Player.mk clientA (lit "Alice") 30);
    (clientB, Player.mk clientB (lit "Bob") 20) ].

Definition lastRoundRoom : Room.t :=
  Room.mk roomR1 finalPlayers (Some clientB) (Some [0xD53C; 0xC790]) 5 5
    (lit "food") false (Some 9%nat) (Some 8%nat).

Definition lastRoundState : State :=
  mkState {[ roomR1 := lastRoundRoom ]}
    (<[clientA := roomR1]> {[ clientB := roomR1 ]})
    [ mkTimer 8%nat (ROUND_DURATION_MS / 2) (HintCallback roomR1) ]
    11%nat.

(** ** Word lists *)

(** Random bits for which [randomIndex] over [n] entries is [i]. *)
Definition bitsFor (i n : nat) : Z :=
  (Z.of_nat i * 2 ^ 53 + Z.of_nat n - 1) / Z.of_nat n.

(** ** Starting a round *)

(** The room after the round-start branch of [startRound], [h] being the
    handle of the hint timer. *)
Definition startedRoom (room : Room.t) (k : Z) (h : TimerHandle) : Room.t :=
  Room.mk (Room.id room) (Room.players room) (chooseNextDrawerId room)
    (getRandomWord (Room.category room) k) (Room.round room + 1)
    (Room.maxRounds room) (Room.category room) true (Some (S h)) (Some h).

(** The unicast of the secret word, guarded as [startRound] guards it. *)
Definition wordUnicast (room : Room.t) : list Effect :=
  match Room.drawerId room, Room.currentWord room with
  | Some (c :: d), Some (c' :: w) => [io_to_emit (c :: d) (wordForDrawer (c' :: w))]
  | _, _ => []
  end.

(** The result of the round-start branch on [room]: the state and the
    emissions in their order. *)
Definition roundStart (roomId : jsstring) (k : Z) (room : Room.t) (s : State)
    : unit * State * list Effect :=
  let started := startedRoom room k (nextHandle s) in
  (tt,
   mkState (<[roomId := started]> (rooms s)) (socketRoomMap s)
     (cancelIfSet (Room.hintTimerId room)
        (cancelIfSet (Room.timerId room) (timers s))
      ++ [ mkTimer (nextHandle s) (ROUND_DURATION_MS / 2) (HintCallback roomId);
           mkTimer (S (nextHandle s)) ROUND_DURATION_MS (TimeoutCallback roomId) ])
     (S (S (nextHandle s))),
   [ io_to_emit roomId clearCanvas;
     io_to_emit roomId (hintUpdated []);
     io_to_emit roomId
       (roundStarted (Room.round room + 1) (Room.maxRounds room)
          (chooseNextDrawerId room) ROUND_DURATION_SEC) ]
   ++ wordUnicast started
   ++ [ io_to_emit roomId (roomStateOf started) ]).

(** The room [startGame] hands to [startRound]. *)
Definition resetRoom (room : Room.t) : Room.t :=
  Room.set_drawerId None (Room.set_currentWord None (Room.set_round 0 room)).

(** ** Rosters and bindings *)

(** A player of a room with a non-empty identifier is bound to that room. *)
Definition members_bound (s : State) : Prop :=
  forall roomId room sid,
    rooms s !! roomId = Some room -> roomId <> [] ->
    sid ∈ Obj.keys (Room.players room) ->
    socketRoomMap s !! sid = Some roomId.

(** The roster registered under [roomId], empty when there is no such
    room. *)
Definition rosterOf (s : State) (roomId : jsstring) : Obj.t Player.t :=
  match rooms s !! roomId with
  | Some room => Room.players room
  | None => []
  end.

(** ** What an event is addressed to *)

(** The connection an event arrived on. *)
Definition sender (e : Event) : option jsstring :=
  match e with
  | EvJoinRoom sid _ _ _ | EvSetCategory sid _ | EvStartGame sid _
  | EvDraw sid _ _ | EvClearCanvas sid _ | EvAnswer sid _
  | EvChatMessage sid _ | EvDisconnect sid => Some sid
  | EvTimer _ _ => None
  end.

(** The rooms an event is addressed to: the room its connection is bound
    to (and the one it joins), or the room of the timer's callback; the two
    relays look no room up. *)
Definition addressed (s : State) (e : Event) : list jsstring :=
  match e with
  | EvJoinRoom sid roomId _ randomId =>
      or_else (trim roomId) randomId
      :: match socketRoomMap s !! sid with
         | Some prev => [prev]
         | None => []
         end
  | EvSetCategory sid _ | EvStartGame sid _ | EvAnswer sid _
  | EvChatMessage sid _ | EvDisconnect sid =>
      match socketRoomMap s !! sid with
      | Some roomId => [roomId]
      | None => []
      end
  | EvTimer h _ =>
      match pendingCallback h s with
      | Some cb => [callbackRoom cb]
      | None => []
      end
  | EvDraw _ _ _ | EvClearCanvas _ _ => []
  end.

(** What the two relays pass on: the stroke, or the clearing, to the group
    the payload names, but the sender. *)
Definition relayed (e : Event) : list Effect :=
  match e with
  | EvDraw sid roomId stroke => [socket_to_emit sid roomId (draw stroke)]
  | EvClearCanvas sid roomId => [socket_to_emit sid roomId clearCanvas]
  | _ => []
  end.

(** ** Well-formed records *)

Definition player_ok (sid : jsstring) (p : Player.t) : Prop :=
  Player.id p = sid /\ Player.nickname p <> [].

(** What every registered room record satisfies: it carries the identifier
    it is registered under, five rounds at most, a counter that is not
    negative, a category that is not empty, and a roster whose keys are
    distinct and whose records carry their key and a nickname that is not
    empty. *)
Definition record_ok (roomId : jsstring) (room : Room.t) : Prop :=
  Room.id room = roomId
  /\ Room.maxRounds room = 5
  /\ 0 <= Room.round room
  /\ Room.category room <> []
  /\ NoDup (Obj.keys (Room.players room))
  /\ forall sid p, Obj.get sid (Room.players room) = Some p -> player_ok sid p.

Definition records_ok (s : State) : Prop := map_Forall record_ok (rooms s).

(** ** Pending timers *)

(** The delay each kind of callback is scheduled with. *)
Definition delayOf (cb : Callback) : Z :=
  match cb with
  | HintCallback _ => ROUND_DURATION_MS / 2
  | TimeoutCallback _ => ROUND_DURATION_MS
  | CooldownCallback _ => COOLDOWN_MS
  end.

(** A pending timer was handed out by [setTimeout], with the delay of its
    kind. *)
Definition timer_ok (s : State) (t : Timer) : Prop :=
  (handle t < nextHandle s)%nat /\ delayMs t = delayOf (callback t).

(** The handles a room stores were handed out, and name no pending timer
    but the room's own round timer and hint timer. *)
Definition room_timers_ok (s : State) (roomId : jsstring) (room : Room.t) : Prop :=
  (forall h, Room.timerId room = Some h ->
     (h < nextHandle s)%nat
     /\ forall t, t ∈ timers s -> handle t = h ->
          callback t = TimeoutCallback roomId)
  /\ (forall h, Room.hintTimerId room = Some h ->
        (h < nextHandle s)%nat
        /\ forall t, t ∈ timers s -> handle t = h ->
             callback t = HintCallback roomId).

Definition timers_ok (s : State) : Prop :=
  (forall t, t ∈ timers s -> timer_ok s t)
  /\ map_Forall (room_timers_ok s) (rooms s).

(** The event is the firing of the timer [h]. *)
Definition fires (e : Event) (h : TimerHandle) : Prop :=
  exists k, e = EvTimer h k.

(** ** More example states *)

(** Alice and Bob in r1, no game started yet. *)
Definition lobbyRoom : Room.t :=
  Room.mk roomR1 demoPlayers None None 0 5 (lit "food") false None None.

Definition lobbyState : State :=
  runEvents asciiLower
    [ EvJoinRoom clientA roomR1 (lit "Alice") [];
      EvJoinRoom clientB roomR1 (lit " Bob ") [] ]
    initialState.

(** r1 after Bob's right guess in round 1. *)
Definition guessedRoom : Room.t :=
  Room.set_roundActive false
    (Room.set_players (Obj.alter (Player.add_score 10) clientB) demoRoom).

(** ** Roster changes *)

(** The events that change a roster: a join and a disconnect. *)
Definition changes_roster (e : Event) : Prop :=
  match e with
  | EvJoinRoom _ _ _ _ | EvDisconnect _ => True
  | _ => False
  end.

(** * Properties *)

(** ** Hint generation *)

Lemma leadingConsonantIndex_lt c :
  inSyllableBlock c = true -> (leadingConsonantIndex c < length CHO)%nat.
Proof.
  unfold inSyllableBlock, leadingConsonantIndex. intros Hc.
  apply andb_true_iff in Hc as [Hlo Hhi].
  apply Z.leb_le in Hlo. apply Z.leb_le in Hhi.
  assert (0 <= (c - 0xAC00) / 588 < 19).
  { split; [apply Z.div_pos; lia|apply Z.div_lt_upper_bound; lia]. }
  change (length CHO) with 19%nat. lia.
Qed.

Lemma chosungOf_unit c : chosungOf [c] = hintOfUnit c.
Proof.
  unfold chosungOf, hintOfUnit, charCodeAt0. simpl hd.
  destruct (inSyllableBlock c) eqn:Hblock.
  - pose proof (leadingConsonantIndex_lt c Hblock) as Hlt.
    unfold inSyllableBlock in Hblock.
    apply andb_true_iff in Hblock as [Hlo Hhi].
    apply Z.leb_le in Hlo. apply Z.leb_le in Hhi.
    replace (c <? 0xAC00) with false by (symmetry; apply Z.ltb_ge; lia).
    replace (c >? 0xD7A3) with false by (rewrite Z.gtb_ltb; symmetry; apply Z.ltb_ge; lia).
    simpl orb. cbv iota.
    change (21 * 28) with 588.
    fold (leadingConsonantIndex c).
    destruct (CHO !! leadingConsonantIndex c) as [sym|] eqn:Hsym.
    + symmetry. apply nth_lookup_Some with (d := []) in Hsym. exact Hsym.
    + apply lookup_ge_None in Hsym. lia.
  - unfold inSyllableBlock in Hblock.
    apply andb_false_iff in Hblock as [Hlo|Hhi].
    + apply Z.leb_gt in Hlo.
      replace (c <? 0xAC00) with true by (symmetry; apply Z.ltb_lt; lia).
      reflexivity.
    + apply Z.leb_gt in Hhi.
      replace (c >? 0xD7A3) with true by (rewrite Z.gtb_ltb; symmetry; apply Z.ltb_lt; lia).
      rewrite orb_true_r. reflexivity.
Qed.

Lemma surrogate_not_syllable c :
  isHighSurrogate c = true \/ isLowSurrogate c = true ->
  inSyllableBlock c = false.
Proof.
  unfold isHighSurrogate, isLowSurrogate, inSyllableBlock.
  intros [H|H]; apply andb_true_iff in H as [Hlo Hhi];
    apply Z.leb_le in Hlo; apply Z.leb_le in Hhi;
    apply andb_false_iff; right; apply Z.leb_gt; lia.
Qed.

Lemma chosungOf_pair c d :
  isHighSurrogate c = true -> isLowSurrogate d = true ->
  chosungOf [c; d] = hintOfUnit c ++ hintOfUnit d.
Proof.
  intros Hc Hd. unfold hintOfUnit.
  rewrite !surrogate_not_syllable by auto.
  unfold chosungOf, charCodeAt0. simpl hd.
  unfold isHighSurrogate in Hc. apply andb_true_iff in Hc as [Hlo Hhi].
  apply Z.leb_le in Hlo.
  replace (c >? 0xD7A3) with true by (rewrite Z.gtb_ltb; symmetry; apply Z.ltb_lt; lia).
  rewrite orb_true_r. reflexivity.
Qed.

Lemma Array_from_cons2 c d rest :
  Array_from (c :: d :: rest) =
  if isHighSurrogate c && isLowSurrogate d
  then [c; d] :: Array_from rest
  else [c] :: Array_from (d :: rest).
Proof. reflexivity. Qed.

(** [Array_from] recurses one or two code units at a time; the induction
    is on a bound of the length. *)
Lemma makeChosungHint_units n : forall word,
  (length word <= n)%nat -> makeChosungHint word = hintSpec word.
Proof.
  unfold makeChosungHint, hintSpec, Js.join.
  induction n as [|n IH]; intros word Hlen.
  - destruct word; [reflexivity|simpl in Hlen; lia].
  - destruct word as [|c [|d rest]]; [reflexivity| |].
    + simpl. rewrite chosungOf_unit. reflexivity.
    + rewrite Array_from_cons2.
      destruct (isHighSurrogate c && isLowSurrogate d) eqn:Hpair.
      * apply andb_true_iff in Hpair as [Hc Hd].
        rewrite !map_cons, !concat_cons.
        rewrite chosungOf_pair by assumption.
        rewrite IH by (cbn [length] in *; lia).
        rewrite <- app_assoc. reflexivity.
      * rewrite (map_cons hintOfUnit c), map_cons, !concat_cons.
        rewrite chosungOf_unit.
        rewrite IH by (cbn [length] in *; lia). reflexivity.
Qed.

(** C5. The hint is a function of the word alone: unit by unit, a code unit
    of the Hangul syllable block U+AC00..U+D7A3 is replaced by the entry of
    the table [CHO] at index floor((code - 0xAC00) / 588), which the table
    always has, any other code unit is kept, and the pieces are joined in
    the order of the word. *)
Theorem makeChosungHint_is_hintSpec :
  (forall word, makeChosungHint word = hintSpec word)
  /\ (forall c, inSyllableBlock c = true ->
        CHO !! leadingConsonantIndex c = Some (hintOfUnit c))
  /\ (forall c, inSyllableBlock c = false -> hintOfUnit c = [c]).
Proof.
  split; [|split].
  - intros word. apply (makeChosungHint_units (length word)). lia.
  - intros c Hc. unfold hintOfUnit. rewrite Hc.
    pose proof (leadingConsonantIndex_lt c Hc) as Hlt.
    apply lookup_lt_is_Some in Hlt as [sym Hsym].
    rewrite Hsym. f_equal. symmetry.
    apply nth_lookup_Some with (d := []) in Hsym. exact Hsym.
  - intros c Hc. unfold hintOfUnit. rewrite Hc. reflexivity.
Qed.

(** ** Drawer rotation *)

Lemma indexOf_lookup (ids : list jsstring) : forall i d,
  NoDup ids -> ids !! i = Some d -> indexOf d ids = Some i.
Proof.
  induction ids as [|y ids IH]; intros i d Hnd Hi; [discriminate|].
  apply NoDup_cons in Hnd as [Hy Hnd]. simpl.
  destruct i as [|i]; simpl in Hi.
  - injection Hi as ->. rewrite decide_True by reflexivity. reflexivity.
  - rewrite decide_False.
    + rewrite (IH i d Hnd Hi). reflexivity.
    + intros ->. apply Hy. eapply list_elem_of_lookup_2. exact Hi.
Qed.


Section Rotation.

Variable room : Room.t.
Let ids : list jsstring := Obj.keys (Room.players room).

(** Keys of an object are pairwise distinct, and a connection identity is
    never the empty string. *)
Hypothesis ids_distinct : NoDup ids.
Hypothesis ids_nonempty : Forall (fun i => i <> []) ids.

Lemma chooseNextDrawerId_at (r : Room.t) i d :
  Obj.keys (Room.players r) = ids ->
  Room.drawerId r = Some d -> ids !! i = Some d ->
  chooseNextDrawerId r = ids !! (S i mod length ids)%nat.
Proof.
  intros Hkeys Hd Hi. unfold chooseNextDrawerId. rewrite Hkeys, Hd.
  assert (Hlt : (i < length ids)%nat) by (eapply lookup_lt_Some; exact Hi).
  assert (Hne : d <> []).
  { eapply (proj1 (Forall_forall _ _) ids_nonempty).
    eapply list_elem_of_lookup_2. exact Hi. }
  destruct ids as [|first rest] eqn:Hids; [simpl in Hlt; lia|].
  destruct d as [|c d']; [congruence|]. cbn [truthy negb].
  rewrite <- Hids in *.
  rewrite (indexOf_lookup ids i (c :: d') ids_distinct Hi).
  destruct (decide (i = (length ids - 1)%nat)) as [Hlast|Hmid].
  - replace (S i) with (length ids) by lia.
    rewrite Nat.Div0.mod_same. rewrite Hids. reflexivity.
  - rewrite Nat.mod_small by lia. f_equal. lia.
Qed.





End Rotation.

(** ** Objects as insertion-ordered maps *)

Section ObjFacts.

Context {V : Type}.
Implicit Types (o : Obj.t V) (k : jsstring) (v : V).

Lemma Obj_get_set_eq k v o : Obj.get k (Obj.set k v o) = Some v.
Proof.
  induction o as [|[k' v'] o IH]; simpl.
  - rewrite decide_True by reflexivity. reflexivity.
  - destruct (decide (k' = k)) as [->|Hne]; simpl.
    + rewrite decide_True by reflexivity. reflexivity.
    + rewrite decide_False by assumption. exact IH.
Qed.

Lemma Obj_get_set k k0 v o :
  Obj.get k (Obj.set k0 v o) = if decide (k0 = k) then Some v else Obj.get k o.
Proof.
  induction o as [|[k' v'] o IH]; simpl.
  - destruct (decide (k0 = k)); reflexivity.
  - destruct (decide (k' = k0)) as [->|Hne]; simpl.
    + destruct (decide (k0 = k)); reflexivity.
    + destruct (decide (k' = k)) as [->|Hne'].
      * rewrite decide_False by congruence. reflexivity.
      * exact IH.
Qed.

Lemma Obj_get_delete k k0 o :
  Obj.get k (Obj.delete k0 o) = if decide (k0 = k) then None else Obj.get k o.
Proof.
  induction o as [|[k' v'] o IH]; simpl.
  - destruct (decide (k0 = k)); reflexivity.
  - destruct (decide (k' = k0)) as [->|Hne]; simpl.
    + rewrite IH. destruct (decide (k0 = k)); reflexivity.
    + destruct (decide (k' = k)) as [->|Hne'].
      * rewrite decide_False by congruence. reflexivity.
      * exact IH.
Qed.

Lemma Obj_get_alter (f : V -> V) k k0 o :
  Obj.get k (Obj.alter f k0 o)
  = if decide (k0 = k) then f <$> Obj.get k o else Obj.get k o.
Proof.
  induction o as [|[k' v'] o IH]; simpl.
  - destruct (decide (k0 = k)); reflexivity.
  - destruct (decide (k' = k0)) as [->|Hne]; simpl.
    + destruct (decide (k0 = k)); reflexivity.
    + destruct (decide (k' = k)) as [->|Hne'].
      * rewrite decide_False by congruence. reflexivity.
      * exact IH.
Qed.

Lemma Obj_get_keys k o : is_Some (Obj.get k o) <-> k ∈ Obj.keys o.
Proof.
  unfold Obj.keys. induction o as [|[k' v'] o IH]; simpl.
  - split; [intros [? ?]; discriminate|intros H; inversion H].
  - destruct (decide (k' = k)) as [->|Hne].
    + split; [intros _; apply list_elem_of_here|eauto].
    + rewrite IH. split; [apply list_elem_of_further|].
      intros H. apply elem_of_cons in H as [->|H]; [congruence|exact H].
Qed.

Lemma Obj_keys_set k v o x :
  x ∈ Obj.keys (Obj.set k v o) <-> x = k \/ x ∈ Obj.keys o.
Proof.
  unfold Obj.keys. induction o as [|[k' v'] o IH]; simpl.
  - rewrite list_elem_of_singleton. split; [auto|].
    intros [H|H]; [exact H|inversion H].
  - destruct (decide (k' = k)) as [->|Hne]; simpl.
    + rewrite !elem_of_cons. tauto.
    + rewrite !elem_of_cons, IH. tauto.
Qed.

Lemma Obj_keys_delete k o x :
  x ∈ Obj.keys (Obj.delete k o) <-> x <> k /\ x ∈ Obj.keys o.
Proof.
  unfold Obj.keys. induction o as [|[k' v'] o IH]; simpl.
  - split; [intros H; inversion H|intros [_ H]; inversion H].
  - destruct (decide (k' = k)) as [->|Hne]; simpl.
    + rewrite IH, elem_of_cons. split; [tauto|].
      intros [Hx [->|H]]; [congruence|auto].
    + rewrite !elem_of_cons, IH. split; [|tauto].
      intros [->|[? ?]]; auto.
Qed.

Lemma Obj_keys_alter f k o : Obj.keys (Obj.alter f k o) = Obj.keys o.
Proof.
  unfold Obj.keys. induction o as [|[k' v'] o IH]; simpl; [reflexivity|].
  destruct (decide (k' = k)); simpl; [reflexivity|]. rewrite IH. reflexivity.
Qed.

Lemma Obj_values_set (P : V -> Prop) k v o :
  P v -> Forall P (Obj.values o) -> Forall P (Obj.values (Obj.set k v o)).
Proof.
  unfold Obj.values. intros Hv. induction o as [|[k' v'] o IH]; simpl.
  - intros _. repeat constructor. exact Hv.
  - intros H. apply Forall_cons in H as [Hv' H].
    destruct (decide (k' = k)); simpl; constructor; auto.
Qed.

Lemma Obj_values_delete (P : V -> Prop) k o :
  Forall P (Obj.values o) -> Forall P (Obj.values (Obj.delete k o)).
Proof.
  unfold Obj.values. induction o as [|[k' v'] o IH]; simpl; [auto|].
  intros H. apply Forall_cons in H as [Hv' H].
  destruct (decide (k' = k)); simpl; [|constructor]; auto.
Qed.

Lemma Obj_values_alter (P : V -> Prop) f k o :
  (forall v, P v -> P (f v)) ->
  Forall P (Obj.values o) -> Forall P (Obj.values (Obj.alter f k o)).
Proof.
  unfold Obj.values. intros Hf. induction o as [|[k' v'] o IH]; simpl; [auto|].
  intros H. apply Forall_cons in H as [Hv' H].
  destruct (decide (k' = k)); simpl; constructor; auto.
Qed.

End ObjFacts.

(** ** Running a handler symbolically *)

Ltac unfold_monad :=
  unfold exec, output, bind, ret, skip, emit, transport, rooms_get, store,
    mutate, rooms_delete, socketRoomMap_get, socketRoomMap_set,
    socketRoomMap_delete, setTimeout, clearTimeout, takeTimer,
    getOrCreateRoom, broadcastRoomState, clearRoomTimers,
    bind, ret, skip, rooms_get, store, clearTimeout.

(** Case analysis on the innermost scrutinee the goal is stuck on. *)
Ltac case_head :=
  match goal with
  | |- context [match ?x with _ => _ end] =>
      lazymatch x with
      | context [match _ with _ => _ end] => fail
      | _ => destruct x eqn:?
      end
  end.

#[global] Arguments lit : simpl never.
#[global] Arguments or_else : simpl never.
#[global] Arguments trim : simpl never.
#[global] Arguments makeChosungHint : simpl never.
#[global] Arguments getRandomWord : simpl never.
#[global] Arguments chooseNextDrawerId : simpl never.

Ltac room_simpl :=
  cbn [Room.id Room.players Room.drawerId Room.currentWord Room.round
       Room.maxRounds Room.category Room.roundActive Room.timerId
       Room.hintTimerId Room.set_players Room.set_drawerId
       Room.set_currentWord Room.set_round Room.set_category
       Room.set_roundActive Room.set_timerId Room.set_hintTimerId
       rooms socketRoomMap timers nextHandle newRoom] in *.

Ltac run_handler :=
  unfold_monad; simpl; repeat (case_head; simpl); room_simpl.

(** Lookups through [insert] and [delete], by cases on the keys. *)
Ltac map_cases :=
  repeat match goal with
  | H : context [(<[?i := _]> _) !! ?j] |- _ =>
      first [ rewrite lookup_insert_eq in H
            | rewrite lookup_insert_ne in H by congruence
            | destruct (decide (i = j)); [subst|] ]
  | |- context [(<[?i := _]> _) !! ?j] =>
      first [ rewrite lookup_insert_eq
            | rewrite lookup_insert_ne by congruence
            | destruct (decide (i = j)); [subst|] ]
  | H : context [(delete ?i _) !! ?j] |- _ =>
      first [ rewrite lookup_delete_eq in H
            | rewrite lookup_delete_ne in H by congruence
            | destruct (decide (i = j)); [subst|] ]
  | |- context [(delete ?i _) !! ?j] =>
      first [ rewrite lookup_delete_eq
            | rewrite lookup_delete_ne by congruence
            | destruct (decide (i = j)); [subst|] ]
  end.

(** ** Joining creates a fresh player record *)

(** C9. Whatever the state, after [joinRoom] the room the connection
    joined (the trimmed room identifier, or the generated one when that is
    empty) holds for this connection the record
    [{id: socket.id, nickname, score: 0}], and the session is bound to that
    room; this includes a connection that was already a member of that very
    room, whose accumulated score is thereby back to 0. *)
Theorem joinRoom_fresh_player s sid roomId nickname randomId :
  let s' := exec (joinRoom sid roomId nickname randomId) s in
  let target := or_else (trim roomId) randomId in
  exists room,
    rooms s' !! target = Some room
    /\ Obj.get sid (Room.players room)
       = Some (Player.mk sid (or_else (trim nickname) anonymousNick) 0)
    /\ socketRoomMap s' !! sid = Some target.
Proof.
  destruct s as [rs sm ts nh]. cbv zeta. unfold joinRoom.
  generalize (or_else (trim roomId) randomId) as target.
  generalize (or_else (trim nickname) anonymousNick) as nick.
  intros nick target.
  run_handler; map_cases; simplify_eq;
    eexists; (split; [reflexivity|]);
    (split; [apply Obj_get_set_eq|reflexivity]).
Qed.

(** ** Scores are multiples of 10 *)

Lemma score_ok_fresh sid nick : score_ok (Player.mk sid nick 0).
Proof. exists 0. simpl. lia. Qed.

Lemma score_ok_add p : score_ok p -> score_ok (Player.add_score 10 p).
Proof. intros [n [Hn Hp]]. exists (n + 1). simpl. lia. Qed.

Lemma Obj_get_values {V} (k : jsstring) (v : V) (o : Obj.t V) :
  Obj.get k o = Some v -> v ∈ Obj.values o.
Proof.
  unfold Obj.values. induction o as [|[k' v'] o IH]; simpl; [discriminate|].
  destruct (decide (k' = k)).
  - intros [= ->]. apply list_elem_of_here.
  - intros H. apply list_elem_of_further. auto.
Qed.

Lemma Obj_get_position {V} (k : jsstring) (v : V) (o : Obj.t V) :
  Obj.get k o = Some v ->
  exists i, Obj.keys o !! i = Some k /\ map snd o !! i = Some v.
Proof.
  unfold Obj.keys. induction o as [|[k' v'] o IH]; simpl; [discriminate|].
  destruct (decide (k' = k)) as [->|Hne].
  - intros [= ->]. exists 0%nat. split; reflexivity.
  - intros H. destruct (IH H) as (i & Hk & Hv). exists (S i). split; assumption.
Qed.

Ltac solve_scores :=
  repeat first
    [ assumption
    | progress room_simpl
    | apply map_Forall_insert_2
    | apply map_Forall_delete
    | apply Obj_values_set
    | apply Obj_values_delete
    | apply Obj_values_alter
    | apply score_ok_fresh
    | apply score_ok_add
    | constructor
    | match goal with
      | H : map_Forall _ ?m, E : ?m !! ?k = Some ?r
        |- Forall score_ok (Obj.values (Room.players ?r)) => exact (H k r E)
      end ].

Ltac scores_by_cases :=
  run_handler; map_cases; simplify_eq;
  unfold room_scores_ok in *; solve_scores.

Lemma handle_event_scores_ok toLowerCase e s :
  scores_ok s -> scores_ok (exec (handle_event toLowerCase e) s).
Proof.
  destruct s as [rs sm ts nh]. unfold scores_ok. simpl. intros H.
  destruct e; unfold handle_event.
  - unfold joinRoom.
    generalize (or_else (trim roomId) randomId) as target.
    generalize (or_else (trim nickname) anonymousNick) as nick.
    intros nick target. scores_by_cases.
  - unfold setCategory. scores_by_cases.
  - unfold startGame, startRound. scores_by_cases.
  - unfold drawRelay. scores_by_cases.
  - unfold clearCanvasRelay. scores_by_cases.
  - unfold answer. scores_by_cases.
  - unfold chatMessage. scores_by_cases.
  - unfold disconnect. scores_by_cases.
  - unfold fireTimer, runCallback, hintCallback, timeoutCallback, startRound.
    scores_by_cases.
Qed.

Lemma reachable_scores_ok toLowerCase allowed s :
  reachable_by toLowerCase allowed s -> scores_ok s.
Proof.
  induction 1 as [|s e _ IH _].
  - unfold scores_ok. simpl. apply map_Forall_empty.
  - apply handle_event_scores_ok. exact IH.
Qed.

Ltac solve_change :=
  unfold score_change, lookup_player; room_simpl;
  repeat match goal with
  | E : ?m !! ?k = Some _ |- context [?m !! ?k] => rewrite E
  end;
  room_simpl;
  repeat match goal with
  | H : context [Obj.get _ (Obj.set _ _ _)] |- _ => rewrite Obj_get_set in H
  | H : context [Obj.get _ (Obj.delete _ _)] |- _ => rewrite Obj_get_delete in H
  | H : context [Obj.get _ (Obj.alter _ _ _)] |- _ => rewrite Obj_get_alter in H
  | H : context [decide ?P] |- _ => destruct (decide P); simplify_eq
  | H : _ <$> ?x = Some _ |- _ => destruct x eqn:?; simpl in H; simplify_eq
  end;
  first [ left; split; [eauto|reflexivity]
        | right; eexists; split;
          [first [eassumption|reflexivity]|left; reflexivity]
        | right; eexists; split;
          [ first [eassumption|reflexivity]
          | right; split; [eauto|reflexivity] ] ].

Ltac change_by_cases :=
  run_handler; map_cases; intros Hp; simplify_eq; room_simpl; solve_change.

Lemma handle_event_score_change toLowerCase e s roomId sid after :
  lookup_player (exec (handle_event toLowerCase e) s) roomId sid = Some after ->
  score_change e sid (lookup_player s roomId sid) after.
Proof.
  destruct s as [rs sm ts nh]. unfold lookup_player at 1. cbn [rooms].
  destruct e; unfold handle_event.
  - unfold joinRoom.
    generalize (or_else (trim roomId0) randomId) as target.
    generalize (or_else (trim nickname) anonymousNick) as nick.
    intros nick target. change_by_cases.
  - unfold setCategory. change_by_cases.
  - unfold startGame, startRound. change_by_cases.
  - unfold drawRelay. change_by_cases.
  - unfold clearCanvasRelay. change_by_cases.
  - unfold answer. change_by_cases.
  - unfold chatMessage. change_by_cases.
  - unfold disconnect. change_by_cases.
  - unfold fireTimer, runCallback, hintCallback, timeoutCallback, startRound.
    change_by_cases.
Qed.

(** C10. In every reachable state every player's score is a non-negative
    multiple of 10.  Every event handler keeps it so, from any state: the
    record a handler leaves for a connection is either the fresh one of that
    connection's [joinRoom], with score 0, or the record that was there,
    with its score unchanged or, on that connection's [answer], grown by
    exactly 10. *)
Theorem scores_are_multiples_of_10 toLowerCase s :
  reachable toLowerCase s ->
  (forall roomId room sid player,
     rooms s !! roomId = Some room ->
     Obj.get sid (Room.players room) = Some player ->
     exists n, 0 <= n /\ Player.score player = 10 * n)
  /\ (forall s0 e,
        scores_ok s0 -> scores_ok (exec (handle_event toLowerCase e) s0))
  /\ (forall s0 e roomId sid after,
        lookup_player (exec (handle_event toLowerCase e) s0) roomId sid
        = Some after ->
        score_change e sid (lookup_player s0 roomId sid) after).
Proof.
  intros Hreach. split; [|split].
  - intros roomId room sid player Hroom Hplayer.
    pose proof (reachable_scores_ok _ _ _ Hreach roomId room Hroom) as Hok.
    unfold room_scores_ok in Hok.
    apply (proj1 (Forall_forall _ _) Hok).
    eapply Obj_get_values. exact Hplayer.
  - intros s0 e. apply handle_event_scores_ok.
  - intros s0 e roomId sid after. apply handle_event_score_change.
Qed.

(** ** Answer evaluation *)

Lemma asciiLower_Apple :
  asciiLower (trim (lit " Apple ")) = asciiLower (lit "apple").
Proof. reflexivity. Qed.

Lemma isAscii_Apple : isAscii (trim (lit " Apple ")) /\ isAscii (lit "apple").
Proof. split; vm_compute; repeat constructor; discriminate. Qed.

(** C4. An answer submitted by a member of a room whose round is active
    with a word set, the trimmed text being non-empty: from the drawer it is
    relayed as plain chat ([correct: false]) and nothing changes; from
    anybody else the trimmed text and the word are compared after
    [toLowerCase]; when they are equal the player's score grows by exactly
    10 and [answerResult] carries the player, the word and the new score
    (the round then ends and the cooldown timer is set); when they differ
    the text is relayed as plain chat.  With a [toLowerCase] that lowers
    ASCII letters, [" Apple "] matches the word ["apple"]. *)
Theorem answer_evaluates_guess toLowerCase s sid message roomId room player word :
  socketRoomMap s !! sid = Some roomId -> roomId <> [] ->
  rooms s !! roomId = Some room ->
  Obj.get sid (Room.players room) = Some player ->
  trim message <> [] ->
  Room.roundActive room = true ->
  Room.currentWord room = Some word -> word <> [] ->
  let text := trim message in
  let nick := Player.nickname player in
  (Room.drawerId room = Some sid ->
     answer toLowerCase sid message s
     = (tt, s, [io_to_emit roomId (chat nick text false)]))
  /\ (Room.drawerId room <> Some sid ->
      toLowerCase text = toLowerCase word ->
      let room' :=
        Room.set_roundActive false
          (Room.set_players (Obj.alter (Player.add_score 10) sid) room) in
      answer toLowerCase sid message s
      = (tt,
         mkState (<[roomId := room']> (rooms s)) (socketRoomMap s)
           (timers s ++ [mkTimer (nextHandle s) COOLDOWN_MS (CooldownCallback roomId)])
           (S (nextHandle s)),
         [ io_to_emit roomId
             (answerResult true (Player.id player) nick word
                (Player.score player + 10));
           io_to_emit roomId (roundEnded (nick ++ guessedSuffix) (Room.round room));
           io_to_emit roomId clearCanvas;
           io_to_emit roomId (hintUpdated []);
           io_to_emit roomId (roomStateOf room') ])
      /\ Obj.get sid (Room.players room')
         = Some (Player.mk (Player.id player) nick (Player.score player + 10)))
  /\ (Room.drawerId room <> Some sid ->
      toLowerCase text <> toLowerCase word ->
      answer toLowerCase sid message s
      = (tt, s, [ io_to_emit roomId (chat nick text false);
                  io_to_emit roomId (roomStateOf room) ]))
  /\ ((forall x, isAscii x -> toLowerCase x = asciiLower x) ->
      toLowerCase (trim (lit " Apple ")) = toLowerCase (lit "apple")).
Proof.
  destruct s as [rs sm ts nh]. cbn [rooms socketRoomMap timers nextHandle].
  intros Hsess Hrid Hroom Hplayer Htext Hactive Hword Hw. cbv zeta.
  destruct roomId as [|c r]; [congruence|].
  destruct word as [|c' w]; [congruence|].
  destruct (trim message) as [|t0 text] eqn:Htrim; [congruence|].
  split; [|split; [|split]].
  - intros Hdrawer. unfold answer. unfold_monad. simpl.
    rewrite Hsess; simpl; rewrite Hroom; simpl.
    rewrite Hplayer, Htrim, Hactive, Hword. simpl.
    rewrite bool_decide_eq_true_2 by assumption. reflexivity.
  - intros Hdrawer Hmatch. split.
    + unfold answer. unfold_monad. simpl.
      rewrite Hsess; simpl; rewrite Hroom; simpl.
      rewrite Hplayer, Htrim, Hactive, Hword. simpl.
      rewrite bool_decide_eq_false_2 by assumption.
      rewrite bool_decide_eq_true_2 by assumption. simpl.
      rewrite lookup_insert_eq, !insert_insert_eq. reflexivity.
    + room_simpl. clear -Hplayer.
      induction (Room.players room) as [|[k v] o IH]; simpl in *; [discriminate|].
      destruct (decide (k = sid)); simpl.
      * rewrite decide_True by assumption. injection Hplayer as ->. reflexivity.
      * rewrite decide_False by assumption. auto.
  - intros Hdrawer Hmiss. unfold answer. unfold_monad. simpl.
    rewrite Hsess; simpl; rewrite Hroom; simpl.
    rewrite Hplayer, Htrim, Hactive, Hword. simpl.
    rewrite bool_decide_eq_false_2 by assumption.
    rewrite bool_decide_eq_false_2 by assumption. simpl.
    rewrite Hroom. reflexivity.
  - intros Hlc. destruct isAscii_Apple as [H1 H2].
    rewrite (Hlc _ H1), (Hlc _ H2). apply asciiLower_Apple.
Qed.

(** ** Game over *)

Lemma cancel_subseteq h ts : cancel h ts ⊆ ts.
Proof. unfold cancel. intros t Ht. apply list_elem_of_filter in Ht. tauto. Qed.

Lemma cancelIfSet_subseteq h ts : cancelIfSet h ts ⊆ ts.
Proof. destruct h; [apply cancel_subseteq|reflexivity]. Qed.

Ltac bools_to_Z :=
  repeat match goal with
  | H : (_ >? _) = true |- _ => apply Z.gtb_lt in H
  | H : (_ >? _) = false |- _ => rewrite Z.gtb_ltb in H; apply Z.ltb_ge in H
  end.

Ltac solve_gameOver :=
  unfold gameOver in *; room_simpl; bools_to_Z;
  try match goal with H : _ /\ _ |- _ => destruct H end;
  first [ congruence | split; [lia|congruence] | lia ].

Ltac gameOver_by_cases :=
  run_handler; map_cases; intros; simplify_eq; solve_gameOver.

Lemma gameOver_stable toLowerCase s e roomId room :
  rooms s !! roomId = Some room -> gameOver room ->
  ~ restarts roomId s e ->
  forall room', rooms (exec (handle_event toLowerCase e) s) !! roomId = Some room' ->
  gameOver room'.
Proof.
  destruct s as [rs sm ts nh]. cbn [rooms socketRoomMap].
  intros Hroom Hover Hno room'.
  destruct e; unfold handle_event.
  - unfold joinRoom.
    generalize (or_else (trim roomId0) randomId) as target.
    generalize (or_else (trim nickname) anonymousNick) as nick.
    intros nick target. gameOver_by_cases.
  - unfold setCategory. gameOver_by_cases.
  - assert (Hsid : sm !! sid <> Some roomId).
    { intros Hb. apply Hno. exists sid, k. auto. }
    unfold startGame, startRound. gameOver_by_cases.
  - unfold drawRelay. gameOver_by_cases.
  - unfold clearCanvasRelay. gameOver_by_cases.
  - unfold answer. gameOver_by_cases.
  - unfold chatMessage. gameOver_by_cases.
  - unfold disconnect. gameOver_by_cases.
  - unfold fireTimer, runCallback, hintCallback, timeoutCallback, startRound.
    gameOver_by_cases.
Qed.

(** C7. [startRound] on a registered room with at least one player whose
    incremented counter exceeds [maxRounds]: the room ends up with
    [roundActive = false], no word, no drawer and its two timer handles
    cleared, its roster being kept; the broadcasts are [gameEnded] with the
    final roster, [clearCanvas], an empty hint and the room state.  The
    roster sent is the list of the player records of the room in roster
    order, one per key: every record stored in the room is in it, with its
    score.  No [setTimeout] is made, so every timer pending afterwards was
    pending before.  The room is then over, and stays over through every
    later event as long as it is registered, until a connection of the room
    sends [startGame]: no round starts by itself. *)
Theorem startRound_game_over toLowerCase s roomId k room :
  rooms s !! roomId = Some room ->
  Room.players room <> [] ->
  Room.round room + 1 > Room.maxRounds room ->
  let s' :=
    mkState (<[roomId := endedRoom room]> (rooms s)) (socketRoomMap s)
      (cancelIfSet (Room.hintTimerId room)
         (cancelIfSet (Room.timerId room) (timers s)))
      (nextHandle s) in
  let finalRoster := map snd (Room.players room) in
  startRound roomId k s
  = (tt, s',
     [ io_to_emit roomId (gameEnded finalRoster);
       io_to_emit roomId clearCanvas;
       io_to_emit roomId (hintUpdated []);
       io_to_emit roomId
         (roomState finalRoster None (Room.round room + 1)
            (Room.maxRounds room) (Room.category room) false) ])
  /\ (forall sid p,
        Obj.get sid (Room.players room) = Some p ->
        p ∈ finalRoster
        /\ exists i, Obj.keys (Room.players room) !! i = Some sid
                     /\ finalRoster !! i = Some p)
  /\ length finalRoster = length (Obj.keys (Room.players room))
  /\ Room.players (endedRoom room) = Room.players room
  /\ timers s' ⊆ timers s
  /\ nextHandle s' = nextHandle s
  /\ gameOver (endedRoom room)
  /\ (forall s1 e room1 room2,
        rooms s1 !! roomId = Some room1 -> gameOver room1 ->
        ~ restarts roomId s1 e ->
        rooms (exec (handle_event toLowerCase e) s1) !! roomId = Some room2 ->
        gameOver room2).
Proof.
  destruct s as [rs sm ts nh]. cbn [rooms socketRoomMap timers nextHandle].
  intros Hroom Hplayers Hround. cbv zeta.
  split; [|split; [|split; [|split; [|split; [|split; [|split]]]]]].
  - unfold startRound. unfold_monad. simpl. rewrite Hroom. simpl.
    destruct room as [rid ps d w n mx cat act tid hid]. room_simpl.
    destruct ps as [|p ps]; [congruence|]. simpl.
    assert (Hgt : (n + 1 >? mx) = true) by (apply Z.gtb_lt; lia).
    unfold endedRoom, roomStateOf, getPlayerList, Obj.values. room_simpl.
    destruct tid as [tid|], hid as [hid|]; simpl; rewrite Hgt; simpl;
      rewrite ?lookup_insert_eq, ?insert_insert_eq; reflexivity.
  - intros sid p Hget. split.
    + exact (Obj_get_values sid p (Room.players room) Hget).
    + exact (Obj_get_position sid p (Room.players room) Hget).
  - unfold Obj.keys. rewrite !length_map. reflexivity.
  - reflexivity.
  - etransitivity; apply cancelIfSet_subseteq.
  - reflexivity.
  - unfold gameOver, endedRoom. room_simpl. split; [lia|reflexivity].
  - intros s1 e room1 room2 H1 Hover Hno H2.
    exact (gameOver_stable toLowerCase s1 e roomId room1 H1 Hover Hno room2 H2).
Qed.

(** ** Removing a room and its timers *)

Lemma removal_is_by_disconnect toLowerCase s e roomId room :
  rooms s !! roomId = Some room ->
  rooms (exec (handle_event toLowerCase e) s) !! roomId = None ->
  (exists sid, e = EvDisconnect sid)
  /\ timers (exec (handle_event toLowerCase e) s) = timers s
  /\ nextHandle (exec (handle_event toLowerCase e) s) = nextHandle s.
Proof.
  destruct s as [rs sm ts nh]. cbn [rooms socketRoomMap timers nextHandle].
  intros Hroom.
  destruct e; unfold handle_event.
  - unfold joinRoom.
    generalize (or_else (trim roomId0) randomId) as target.
    generalize (or_else (trim nickname) anonymousNick) as nick.
    intros nick target.
    run_handler; map_cases; intros; simplify_eq.
  - unfold setCategory. run_handler; map_cases; intros; simplify_eq.
  - unfold startGame, startRound. run_handler; map_cases; intros; simplify_eq.
  - unfold drawRelay. run_handler; map_cases; intros; simplify_eq.
  - unfold clearCanvasRelay. run_handler; map_cases; intros; simplify_eq.
  - unfold answer. run_handler; map_cases; intros; simplify_eq.
  - unfold chatMessage. run_handler; map_cases; intros; simplify_eq.
  - unfold disconnect. run_handler; map_cases; intros; simplify_eq; eauto.
  - unfold fireTimer, runCallback, hintCallback, timeoutCallback, startRound.
    run_handler; map_cases; intros; simplify_eq.
Qed.

Lemma stale_timer_is_noop s h k cb :
  pendingCallback h s = Some cb ->
  rooms s !! callbackRoom cb = None ->
  fireTimer h k s
  = (tt, mkState (rooms s) (socketRoomMap s) (cancel h (timers s)) (nextHandle s),
     []).
Proof.
  destruct s as [rs sm ts nh]. unfold pendingCallback.
  cbn [rooms socketRoomMap timers nextHandle]. intros Hcb Hroom.
  unfold fireTimer. unfold_monad. simpl. rewrite Hcb. simpl.
  destruct cb as [rid|rid|rid]; simpl in Hroom;
    unfold runCallback, hintCallback, timeoutCallback, startRound;
    unfold_monad; simpl; rewrite Hroom; reflexivity.
Qed.

(** C3, as the code has it.  A room leaves the registry only in the
    [disconnect] handler (when its roster has become empty), and that
    removal cancels nothing: every timer pending before it, the room's
    round-timeout and hint timers included, is still pending after it.  What
    protects the server is the existence check of the callbacks: a timer
    that fires for a room identifier that is not registered changes no room
    and no session, schedules nothing and emits nothing. *)
Theorem room_removal_cancels_no_timer toLowerCase s e roomId room :
  rooms s !! roomId = Some room ->
  rooms (exec (handle_event toLowerCase e) s) !! roomId = None ->
  ((exists sid, e = EvDisconnect sid)
   /\ timers (exec (handle_event toLowerCase e) s) = timers s
   /\ nextHandle (exec (handle_event toLowerCase e) s) = nextHandle s)
  /\ (forall s1 h k cb,
        pendingCallback h s1 = Some cb -> callbackRoom cb = roomId ->
        rooms s1 !! roomId = None ->
        fireTimer h k s1
        = (tt, mkState (rooms s1) (socketRoomMap s1) (cancel h (timers s1))
                 (nextHandle s1), [])).
Proof.
  intros Hroom Hgone. split.
  - exact (removal_is_by_disconnect toLowerCase s e roomId room Hroom Hgone).
  - intros s1 h k cb Hcb Hrid Hnone. apply stale_timer_is_noop with (cb := cb).
    + exact Hcb.
    + rewrite Hrid. exact Hnone.
Qed.

(** C3 as stated fails: a lone player starts a game and disconnects; the
    room is removed while its hint and round timers stay scheduled. *)
Lemma disconnect_leaves_room_timers_pending :
  let before :=
    exec (run [ joinRoom clientA roomR1 (lit "Alice") [];
                startGame clientA 0 ]) initialState in
  let after := exec (disconnect clientA) before in
  (exists room,
     rooms before !! roomR1 = Some room
     /\ Room.hintTimerId room = Some 0%nat
     /\ Room.timerId room = Some 1%nat)
  /\ rooms after !! roomR1 = None
  /\ timers after
     = [ mkTimer 0%nat (ROUND_DURATION_MS / 2) (HintCallback roomR1);
         mkTimer 1%nat ROUND_DURATION_MS (TimeoutCallback roomR1) ].
Proof.
  cbv zeta. split; [|split].
  - eexists. split; [vm_compute; reflexivity|]. split; reflexivity.
  - vm_compute. reflexivity.
  - vm_compute. reflexivity.
Qed.

(** ** Active rounds have a word and a drawer *)

Lemma randomIndex_lt k n : (0 < n)%nat -> (randomIndex k n < n)%nat.
Proof.
  intros Hn. unfold randomIndex.
  assert (Hk : 0 <= k mod 2 ^ 53 < 2 ^ 53) by (apply Z.mod_pos_bound; lia).
  assert (0 <= k mod 2 ^ 53 * Z.of_nat n / 2 ^ 53 < Z.of_nat n).
  { split.
    - apply Z.div_pos; [nia|lia].
    - apply Z.div_lt_upper_bound; [lia|nia]. }
  lia.
Qed.

(** For a category that is not a member name of [Object.prototype] the
    word provider returns one of the (non-empty) words of a list. *)
Lemma getRandomWord_set category k :
  category ∉ Object_prototype_names ->
  exists w, getRandomWord category k = Some w /\ w <> [].
Proof.
  intros Hcat. unfold getRandomWord.
  assert (Hpick : forall l : list jsstring,
            l <> [] -> Forall (fun w => w <> []) l ->
            exists w, l !! randomIndex k (length l) = Some w /\ w <> []).
  { intros l Hl Hall.
    assert (Hlt : (randomIndex k (length l) < length l)%nat).
    { apply randomIndex_lt. destruct l; [congruence|simpl; lia]. }
    destruct (lookup_lt_is_Some_2 l _ Hlt) as [w Hw].
    exists w. split; [exact Hw|].
    eapply (proj1 (Forall_forall _ _) Hall).
    eapply list_elem_of_lookup_2. exact Hw. }
  unfold WORD_POOL. cbn [Obj.get].
  repeat (case_decide;
          [apply Hpick; [discriminate|repeat constructor; discriminate]|]).
  rewrite decide_False by assumption.
  rewrite decide_True by reflexivity.
  apply Hpick; [discriminate|repeat constructor; discriminate].
Qed.

Lemma indexOf_lt d ids i : indexOf d ids = Some i -> (i < length ids)%nat.
Proof.
  revert i. induction ids as [|y ids IH]; intros i; simpl; [discriminate|].
  destruct (decide (y = d)).
  - intros [= <-]. lia.
  - destruct (indexOf d ids) as [j|]; simpl; [|discriminate].
    intros [= <-]. specialize (IH j eq_refl). lia.
Qed.

(** On a non-empty roster the rotation picks a member. *)
Lemma chooseNextDrawerId_member room :
  length (Obj.keys (Room.players room)) <> 0%nat ->
  exists d, chooseNextDrawerId room = Some d
            /\ d ∈ Obj.keys (Room.players room).
Proof.
  intros Hne. unfold chooseNextDrawerId.
  destruct (Obj.keys (Room.players room)) as [|first rest] eqn:Hkeys.
  { simpl in Hne. congruence. }
  assert (Hfirst : first ∈ first :: rest) by apply list_elem_of_here.
  destruct (negb (truthy (Room.drawerId room))); [eauto|].
  destruct (Room.drawerId room) as [d|]; [|eauto].
  destruct (indexOf d (first :: rest)) as [idx|] eqn:Hidx; [|eauto].
  case_decide; [eauto|].
  apply indexOf_lt in Hidx.
  assert (Hlt : (idx + 1 < length (first :: rest))%nat) by lia.
  destruct (lookup_lt_is_Some_2 _ _ Hlt) as [next Hnext].
  exists next. split; [exact Hnext|].
  eapply list_elem_of_lookup_2. exact Hnext.
Qed.

Lemma food_not_inherited : lit "food" ∉ Object_prototype_names.
Proof.
  intros H. vm_compute in H.
  repeat (apply elem_of_cons in H as [H|H]; [discriminate|]). inversion H.
Qed.

Lemma or_else_category cat :
  cat ∉ Object_prototype_names ->
  or_else cat (lit "food") ∉ Object_prototype_names.
Proof.
  intros Hcat. unfold or_else. destruct (truthy (Some cat)); [exact Hcat|].
  apply food_not_inherited.
Qed.

Lemma newRoom_round_ok roomId : round_ok (newRoom roomId).
Proof. split; [apply food_not_inherited|discriminate]. Qed.

Ltac use_inv_for P H :=
  repeat match goal with
  | E : ?m !! ?k = Some ?r |- _ =>
      lazymatch goal with
      | _ : P r |- _ => fail
      | _ => assert (P r) by exact (H k r E)
      end
  end.

Ltac use_inv H := use_inv_for round_ok H.

Ltac break_hyps :=
  repeat match goal with
  | Hx : _ /\ _ |- _ => destruct Hx
  | Hx : exists _, _ |- _ => destruct Hx
  | Hx : ?a = true -> _, Ha : ?a = true |- _ => specialize (Hx Ha)
  end.

Ltac solve_member :=
  rewrite ?Obj_keys_alter, ?Obj_keys_set, ?Obj_keys_delete;
  match goal with
  | |- ?d = ?k \/ _ => destruct (decide (d = k)); [left; assumption|right]
  | |- _ => idtac
  end;
  first [ assumption
        | split;
          [ first [ assumption | congruence
                  | intros ->;
                    match goal with
                    | Hne : ?p <> ?q, Hd : _ -> ?p = ?q |- _ =>
                        apply Hne, Hd; assumption
                    end ]
          | assumption ] ].

Ltac solve_word :=
  first [ eassumption
        | eexists; split; [first [eassumption|reflexivity]
                          |first [assumption|discriminate]] ].

Ltac solve_round_ok :=
  unfold round_ok in *; room_simpl; break_hyps;
  (split; [ first [ assumption | apply food_not_inherited
                  | apply or_else_category; assumption ]
          | intros Hact; try congruence;
            repeat match goal with
            | Hb : bool_decide _ && _ = false |- _ =>
                rewrite Hact, andb_true_r in Hb;
                apply bool_decide_eq_false in Hb
            end;
            break_hyps; simplify_eq;
            (split; [ solve_word
                    | eexists; split;
                      [first [eassumption|reflexivity]|solve_member] ]) ]).

Ltac use_providers :=
  unfold round_ok in *; break_hyps;
  repeat match goal with
  | Hcat : ?c ∉ Object_prototype_names |- _ =>
      let w := fresh "w" in
      let Hw := fresh "Hw" in
      let Hne := fresh "Hne" in
      match goal with
      | E : getRandomWord c ?k = _ |- _ =>
          destruct (getRandomWord_set c k Hcat) as (w & Hw & Hne);
          rewrite E in Hw; clear E; simplify_eq; try congruence
      | |- context [getRandomWord c ?k] =>
          destruct (getRandomWord_set c k Hcat) as (w & Hw & Hne);
          rewrite Hw
      end
  | E : chooseNextDrawerId ?r = _, n : length (Obj.keys _) <> 0%nat |- _ =>
      let d := fresh "d" in
      let Hd1 := fresh "Hd" in
      let Hd2 := fresh "Hd" in
      destruct (chooseNextDrawerId_member r n) as (d & Hd1 & Hd2);
      rewrite E in Hd1; clear E; simplify_eq; room_simpl
  end.

Lemma startRound_rounds_ok roomId k s :
  rounds_ok s -> rounds_ok (exec (startRound roomId k) s).
Proof.
  destruct s as [rs sm ts nh]. unfold rounds_ok. cbn [rooms]. intros H.
  unfold startRound.
  run_handler; map_cases; simplify_eq; rewrite ?insert_insert_eq;
    repeat first [ assumption | apply map_Forall_insert_2
                 | apply map_Forall_delete | apply newRoom_round_ok ];
    use_inv H; try solve [solve_round_ok]; use_providers; solve_round_ok.
Qed.

(** The state a nested call of [startRound] leaves. *)
Ltac after_startRound :=
  match goal with
  | E : startRound ?r ?k ?st = (_, ?s2, _) |- context [rooms ?s2] =>
      replace s2 with (exec (startRound r k) st)
        by (unfold exec; rewrite E; reflexivity);
      apply startRound_rounds_ok; unfold rounds_ok; cbn [rooms]
  end.

Ltac use_design :=
  try match goal with
  | Hd : forall prev room, Some ?p = Some prev -> _, E : _ !! ?p = Some ?r |- _ =>
      specialize (Hd p r eq_refl ltac:(discriminate) E)
  end.

Ltac rounds_by_cases H :=
  run_handler; try after_startRound;
  map_cases; simplify_eq; rewrite ?insert_insert_eq, ?delete_insert_eq;
  repeat first [ assumption | apply map_Forall_insert_2
               | apply map_Forall_delete | apply newRoom_round_ok ];
  use_inv H; use_design; solve_round_ok.

Lemma handle_event_rounds_ok toLowerCase e s :
  within_design s e -> rounds_ok s ->
  rounds_ok (exec (handle_event toLowerCase e) s).
Proof.
  destruct s as [rs sm ts nh]. unfold rounds_ok.
  cbn [rooms socketRoomMap]. intros Hd H.
  destruct e; unfold handle_event; cbn [within_design rooms socketRoomMap] in Hd.
  - unfold joinRoom. revert Hd.
    generalize (or_else (trim roomId) randomId) as target.
    generalize (or_else (trim nickname) anonymousNick) as nick.
    intros nick target Hd. rounds_by_cases H.
  - unfold setCategory. rounds_by_cases H.
  - unfold startGame. rounds_by_cases H.
  - unfold drawRelay. rounds_by_cases H.
  - unfold clearCanvasRelay. rounds_by_cases H.
  - unfold answer. rounds_by_cases H.
  - unfold chatMessage. rounds_by_cases H.
  - unfold disconnect. rounds_by_cases H.
  - unfold fireTimer, runCallback, hintCallback, timeoutCallback.
    rounds_by_cases H.
Qed.

Lemma reachable_rounds_ok toLowerCase allowed s :
  (forall s e, allowed s e -> within_design s e) ->
  reachable_by toLowerCase allowed s -> rounds_ok s.
Proof.
  intros Hallowed. induction 1 as [|s e _ IH He].
  - unfold rounds_ok. simpl. apply map_Forall_empty.
  - apply handle_event_rounds_ok; auto.
Qed.

Ltac solve_drawer_set :=
  unfold drawer_set in *; room_simpl; intros Hact; try congruence;
  break_hyps; eauto.

Lemma startRound_drawers_set roomId k s :
  drawers_set s -> drawers_set (exec (startRound roomId k) s).
Proof.
  destruct s as [rs sm ts nh]. unfold drawers_set. cbn [rooms]. intros H.
  unfold startRound.
  run_handler; map_cases; simplify_eq; rewrite ?insert_insert_eq;
    repeat first [ assumption | apply map_Forall_insert_2
                 | apply map_Forall_delete ];
    use_inv_for drawer_set H; try solve [solve_drawer_set];
    use_providers; solve_drawer_set.
Qed.

Ltac drawers_by_cases H :=
  run_handler;
  try match goal with
  | E : startRound ?r ?k ?st = (_, ?s2, _) |- context [rooms ?s2] =>
      replace s2 with (exec (startRound r k) st)
        by (unfold exec; rewrite E; reflexivity);
      apply startRound_drawers_set; unfold drawers_set; cbn [rooms]
  end;
  map_cases; simplify_eq; rewrite ?insert_insert_eq, ?delete_insert_eq;
  repeat first [ assumption | apply map_Forall_insert_2
               | apply map_Forall_delete ];
  use_inv_for drawer_set H; solve_drawer_set.

Lemma handle_event_drawers_set toLowerCase e s :
  drawers_set s -> drawers_set (exec (handle_event toLowerCase e) s).
Proof.
  destruct s as [rs sm ts nh]. unfold drawers_set. cbn [rooms]. intros H.
  destruct e; unfold handle_event.
  - unfold joinRoom.
    generalize (or_else (trim roomId) randomId) as target.
    generalize (or_else (trim nickname) anonymousNick) as nick.
    intros nick target. drawers_by_cases H.
  - unfold setCategory. drawers_by_cases H.
  - unfold startGame. drawers_by_cases H.
  - unfold drawRelay. drawers_by_cases H.
  - unfold clearCanvasRelay. drawers_by_cases H.
  - unfold answer. drawers_by_cases H.
  - unfold chatMessage. drawers_by_cases H.
  - unfold disconnect. drawers_by_cases H.
  - unfold fireTimer, runCallback, hintCallback, timeoutCallback.
    drawers_by_cases H.
Qed.

Lemma reachable_drawers_set toLowerCase allowed s :
  reachable_by toLowerCase allowed s -> drawers_set s.
Proof.
  induction 1 as [|s e _ IH _].
  - unfold drawers_set. simpl. apply map_Forall_empty.
  - apply handle_event_drawers_set. exact IH.
Qed.

(** C1, as the code has it.  In every reachable state a room with
    [roundActive] has its [drawerId] set.  Along runs that stay within
    [within_design] it moreover has [currentWord] set to a non-empty word and
    its drawer is a key of [players]; this is kept by every handler: join,
    disconnect, answer, chat, category change, game start and the three
    timer callbacks.  [drawerId] alone may name a connection that has left:
    [disconnect] ends the round of a departing drawer but keeps [drawerId],
    which the rotation later treats as an absent previous drawer. *)
Theorem active_round_has_word_and_drawer toLowerCase allowed s roomId room :
  reachable_by toLowerCase allowed s ->
  rooms s !! roomId = Some room ->
  Room.roundActive room = true ->
  (exists d, Room.drawerId room = Some d)
  /\ ((forall s e, allowed s e -> within_design s e) ->
      (exists w, Room.currentWord room = Some w /\ w <> [])
      /\ exists d, Room.drawerId room = Some d
                   /\ d ∈ Obj.keys (Room.players room)).
Proof.
  intros Hreach Hroom Hactive. split.
  - exact (reachable_drawers_set _ _ _ Hreach roomId room Hroom Hactive).
  - intros Hallowed.
    pose proof (reachable_rounds_ok _ _ _ Hallowed Hreach roomId room Hroom)
      as [_ Hok].
    exact (Hok Hactive).
Qed.

(** C1 as stated fails: the drawer of an active round disconnects while
    another player stays; the round is ended but [drawerId] still names the
    connection that is gone. *)
Lemma departed_drawer_stays_drawerId :
  let s :=
    exec (run [ joinRoom clientA roomR1 (lit "Alice") [];
                joinRoom clientB roomR1 (lit "Bob") [];
                startGame clientA 0;
                disconnect clientA ]) initialState in
  exists room,
    rooms s !! roomR1 = Some room
    /\ Room.drawerId room = Some clientA
    /\ Obj.keys (Room.players room) = [clientB]
    /\ clientA ∉ Obj.keys (Room.players room).
Proof.
  cbv zeta. eexists. split; [vm_compute; reflexivity|].
  split; [reflexivity|]. split; [reflexivity|].
  cbn. intros H. apply list_elem_of_singleton in H. discriminate.
Qed.

(** ** Dangling references *)

Ltac use_sessions H :=
  repeat match goal with
  | E : ?sm !! ?sid = Some ?rid |- _ =>
      lazymatch goal with
      | _ : member_of sid (_ !! rid) |- _ => fail
      | _ => let Hm := fresh "Hm" in pose proof (H sid rid E) as Hm
      end
  end.

Ltac solve_member_of :=
  repeat match goal with
  | E : ?m !! ?k = Some _, Hm : context [?m !! ?k] |- _ => rewrite E in Hm
  | E : ?m !! ?k = None, Hm : context [?m !! ?k] |- _ => rewrite E in Hm
  | E : ?m !! ?k = Some _ |- context [?m !! ?k] => rewrite E
  end;
  unfold member_of in *; room_simpl;
  rewrite ?Obj_keys_alter, ?Obj_keys_set, ?Obj_keys_delete;
  first [ assumption | contradiction
        | left; reflexivity
        | right; assumption
        | split; [congruence|assumption]
        | right; split; [congruence|assumption] ].

Ltac sessions_by_cases H :=
  run_handler; intros sid' rid' Hb; map_cases; simplify_eq; use_sessions H;
  try solve [solve_member_of].

Lemma handle_event_sessions_ok toLowerCase e s :
  sessions_ok s -> sessions_ok (exec (handle_event toLowerCase e) s).
Proof.
  destruct s as [rs sm ts nh]. unfold sessions_ok.
  cbn [rooms socketRoomMap]. intros H.
  destruct e; unfold handle_event.
  - unfold joinRoom.
    generalize (or_else (trim roomId) randomId) as target.
    generalize (or_else (trim nickname) anonymousNick) as nick.
    intros nick target. sessions_by_cases H.
  - unfold setCategory. sessions_by_cases H.
  - unfold startGame, startRound. sessions_by_cases H.
  - unfold drawRelay. sessions_by_cases H.
  - unfold clearCanvasRelay. sessions_by_cases H.
  - unfold answer. sessions_by_cases H.
  - unfold chatMessage. sessions_by_cases H.
  - unfold disconnect. sessions_by_cases H.
    (* the room is removed: nobody else was in it *)
    exfalso.
    match goal with
    | Hroom : rs !! ?rid = Some ?room,
      Hother : member_of sid' (rs !! ?rid),
      Hempty : length (Obj.keys (Obj.delete sid (Room.players ?room))) = 0%nat
      |- _ =>
        rewrite Hroom in Hother; cbn [member_of] in Hother;
        assert (Hin : sid' ∈ Obj.keys (Obj.delete sid (Room.players room)))
          by (apply Obj_keys_delete; split; [congruence|exact Hother]);
        destruct (Obj.keys (Obj.delete sid (Room.players room)));
          [inversion Hin|discriminate]
    end.
  - unfold fireTimer, runCallback, hintCallback, timeoutCallback, startRound.
    sessions_by_cases H.
Qed.

Lemma reachable_sessions_ok toLowerCase allowed s :
  reachable_by toLowerCase allowed s -> sessions_ok s.
Proof.
  induction 1 as [|s e _ IH _].
  - intros sid roomId Hb. simpl in Hb. rewrite lookup_empty in Hb. discriminate.
  - apply handle_event_sessions_ok. exact IH.
Qed.

Lemma answer_guards toLowerCase s sid message :
  unbound sid s -> answer toLowerCase sid message s = (tt, s, []).
Proof.
  destruct s as [rs sm ts nh]. unfold unbound. cbn [rooms socketRoomMap].
  intros Hu. unfold answer. unfold_monad. simpl.
  destruct (sm !! sid) as [[|c r]|]; simpl; [reflexivity| |reflexivity].
  destruct (rs !! (c :: r)) as [room|]; simpl; [|reflexivity].
  rewrite Hu. reflexivity.
Qed.

Lemma unbound_reachable toLowerCase s sid :
  reachable toLowerCase s -> unbound sid s -> socketRoomMap s !! sid = None.
Proof.
  intros Hreach Hu.
  pose proof (reachable_sessions_ok _ _ _ Hreach sid) as Hs.
  unfold unbound in Hu.
  destruct (socketRoomMap s !! sid) as [roomId|]; [|reflexivity].
  specialize (Hs roomId eq_refl).
  destruct (rooms s !! roomId) as [room|]; [|contradiction].
  cbn [member_of] in Hs. apply Obj_get_keys in Hs as [p Hp]. congruence.
Qed.

Lemma chatMessage_guards s sid message :
  unbound sid s -> chatMessage sid message s = (tt, s, []).
Proof.
  destruct s as [rs sm ts nh]. unfold unbound. cbn [rooms socketRoomMap].
  intros Hu. unfold chatMessage. unfold_monad. simpl.
  destruct (sm !! sid) as [[|c r]|]; simpl; [reflexivity| |reflexivity].
  destruct (rs !! (c :: r)) as [room|]; simpl; [|reflexivity].
  rewrite Hu. reflexivity.
Qed.

Lemma roomless_guards s sid :
  roomless sid s ->
  (forall cat, setCategory sid cat s = (tt, s, []))
  /\ disconnect sid s = (tt, s, []).
Proof.
  destruct s as [rs sm ts nh]. unfold roomless. cbn [rooms socketRoomMap].
  intros Hu. split; [intros cat; unfold setCategory|unfold disconnect];
    unfold_monad; simpl;
    (destruct (sm !! sid) as [[|c r]|]; simpl; [reflexivity| |reflexivity]);
    rewrite Hu; reflexivity.
Qed.

Lemma startGame_guard s sid k :
  socketRoomMap s !! sid = None -> startGame sid k s = (tt, s, []).
Proof.
  destruct s as [rs sm ts nh]. cbn [socketRoomMap]. intros Hu.
  unfold startGame. unfold_monad. simpl. rewrite Hu. reflexivity.
Qed.

Lemma startRound_guards s roomId k :
  match rooms s !! roomId with
  | None => True
  | Some room => Room.players room = []
  end ->
  startRound roomId k s = (tt, s, []).
Proof.
  destruct s as [rs sm ts nh]. cbn [rooms]. intros Hu.
  unfold startRound. unfold_monad. simpl.
  destruct (rs !! roomId) as [room|]; simpl; [|reflexivity].
  rewrite Hu. reflexivity.
Qed.

(** C8. In a reachable state, an operation that refers to a session
    binding, a room or a player record that does not exist does nothing: the
    registry, the rosters and the sessions stay as they are, nothing is
    scheduled and nothing is emitted (a timer that fired is merely no longer
    pending).  The guard clauses that make it so hold in any state
    whatever: [answer] and [chatMessage] return at once without a session,
    without the room or without the player record, so such a guess yields no
    broadcast; [setCategory] and [disconnect] without a session or without
    the room; [startGame] without a session; [startRound] without the room
    or on an empty roster. *)
Theorem dangling_reference_is_noop toLowerCase s e :
  reachable toLowerCase s -> dangling s e ->
  handle_event toLowerCase e s = (tt, settled e s, [])
  /\ (forall s0 sid message,
        unbound sid s0 ->
        answer toLowerCase sid message s0 = (tt, s0, [])
        /\ chatMessage sid message s0 = (tt, s0, []))
  /\ (forall s0 sid,
        roomless sid s0 ->
        (forall cat, setCategory sid cat s0 = (tt, s0, []))
        /\ disconnect sid s0 = (tt, s0, []))
  /\ (forall s0 sid k,
        socketRoomMap s0 !! sid = None -> startGame sid k s0 = (tt, s0, []))
  /\ (forall s0 roomId k,
        match rooms s0 !! roomId with
        | None => True
        | Some room => Room.players room = []
        end ->
        startRound roomId k s0 = (tt, s0, [])).
Proof.
  intros Hreach Hd.
  split; [|split; [|split; [|split]]];
    [ |intros s0 sid message Hu; split;
       [apply answer_guards|apply chatMessage_guards]; exact Hu
      |intros s0 sid; apply roomless_guards
      |intros s0 sid k; apply startGame_guard
      |intros s0 roomId k; apply startRound_guards ].
  destruct e; cbn [dangling] in Hd; try contradiction;
    cbn [handle_event settled];
    try (pose proof (unbound_reachable _ _ _ Hreach Hd) as Hnone;
         destruct s as [rs sm ts nh]; cbn [socketRoomMap] in Hnone).
  - unfold setCategory. unfold_monad. simpl. rewrite Hnone. reflexivity.
  - unfold startGame. unfold_monad. simpl. rewrite Hnone. reflexivity.
  - apply answer_guards. exact Hd.
  - unfold chatMessage. unfold_monad. simpl. rewrite Hnone. reflexivity.
  - unfold disconnect. unfold_monad. simpl. rewrite Hnone. reflexivity.
  - destruct Hd as (cb & Hcb & Hroom).
    exact (stale_timer_is_noop s h k cb Hcb Hroom).
Qed.

(** ** Leaving a room by joining another *)

Lemma joinRoom_removes_no_room s sid roomId nickname randomId rid :
  is_Some (rooms s !! rid) ->
  is_Some (rooms (exec (joinRoom sid roomId nickname randomId) s) !! rid).
Proof.
  destruct s as [rs sm ts nh]. cbn [rooms]. intros [room Hroom].
  unfold joinRoom.
  generalize (or_else (trim roomId) randomId) as target.
  generalize (or_else (trim nickname) anonymousNick) as nick.
  intros nick target.
  run_handler; map_cases; simplify_eq; eauto.
Qed.

(** C2, on the code.  The cleanup of [joinRoom] deletes the player from
    the room left and broadcasts that room's state, and that is all: no room
    is ever removed by [joinRoom].  Alice joins r1 and then r2: r1 stays
    registered with an empty roster, whereas her disconnecting from r1
    removes it.  Nor does the cleanup end the round of a departing drawer:
    after Alice, drawing in r1, joins r2, r1 still has an active round whose
    drawer is not in its roster. *)
Theorem joinRoom_keeps_emptied_previous_room :
  (forall s sid roomId nickname randomId rid,
     is_Some (rooms s !! rid) ->
     is_Some (rooms (exec (joinRoom sid roomId nickname randomId) s) !! rid))
  /\ (let s :=
        exec (run [ joinRoom clientA roomR1 (lit "Alice") [];
                    joinRoom clientA roomR2 (lit "Alice") [] ]) initialState in
      socketRoomMap s !! clientA = Some roomR2
      /\ exists room, rooms s !! roomR1 = Some room /\ Room.players room = [])
  /\ (let s :=
        exec (run [ joinRoom clientA roomR1 (lit "Alice") [];
                    disconnect clientA ]) initialState in
      rooms s !! roomR1 = None)
  /\ (let s :=
        exec (run [ joinRoom clientA roomR1 (lit "Alice") [];
                    joinRoom clientB roomR1 (lit "Bob") [];
                    startGame clientA 0;
                    joinRoom clientA roomR2 (lit "Alice") [] ]) initialState in
      exists room,
        rooms s !! roomR1 = Some room
        /\ Room.roundActive room = true
        /\ Room.drawerId room = Some clientA
        /\ Obj.keys (Room.players room) = [clientB]).
Proof.
  split; [exact joinRoom_removes_no_room|]. cbv zeta.
  split; [|split].
  - split; [vm_compute; reflexivity|].
    eexists. split; [vm_compute; reflexivity|reflexivity].
  - vm_compute. reflexivity.
  - eexists. split; [vm_compute; reflexivity|].
    split; [reflexivity|]. split; reflexivity.
Qed.

(** * Further properties *)

(** ** The word provider *)

Lemma randomIndex_bitsFor i n :
  (i < n)%nat -> Z.of_nat n <= 2 ^ 53 -> randomIndex (bitsFor i n) n = i.
Proof.
  intros Hi Hn. unfold randomIndex, bitsFor.
  set (N := Z.of_nat n). set (I := Z.of_nat i).
  assert (HN : 0 < N) by lia. assert (HI : 0 <= I < N) by lia.
  set (K := (I * 2 ^ 53 + N - 1) / N).
  assert (HK1 : K * N <= I * 2 ^ 53 + N - 1).
  { unfold K. rewrite Z.mul_comm. apply Z.mul_div_le. lia. }
  assert (HK2 : I * 2 ^ 53 + N - 1 < (K + 1) * N).
  { unfold K. pose proof (Z.mod_pos_bound (I * 2 ^ 53 + N - 1) N HN).
    pose proof (Z.div_mod (I * 2 ^ 53 + N - 1) N ltac:(lia)). nia. }
  assert (HK0 : 0 <= K) by (unfold K; apply Z.div_pos; nia).
  assert (HKlt : K < 2 ^ 53) by nia.
  rewrite Z.mod_small by lia.
  assert (K * N / 2 ^ 53 = I).
  { symmetry. apply Z.div_unique with (r := K * N - I * 2 ^ 53); nia. }
  lia.
Qed.

Lemma pick_from_list (l : list jsstring) k :
  l <> [] -> Z.of_nat (length l) <= 2 ^ 53 ->
  (exists w, l !! randomIndex k (length l) = Some w /\ w ∈ l)
  /\ (forall w, w ∈ l -> exists k', l !! randomIndex k' (length l) = Some w).
Proof.
  intros Hl Hlen. split.
  - assert (Hlt : (randomIndex k (length l) < length l)%nat).
    { apply randomIndex_lt. destruct l; [congruence|simpl; lia]. }
    destruct (lookup_lt_is_Some_2 l _ Hlt) as [w Hw].
    exists w. split; [exact Hw|]. eapply list_elem_of_lookup_2. exact Hw.
  - intros w Hw. apply list_elem_of_lookup_1 in Hw as [i Hi].
    exists (bitsFor i (length l)).
    rewrite randomIndex_bitsFor; [exact Hi| |exact Hlen].
    eapply lookup_lt_Some. exact Hi.
Qed.

(** X1. [getRandomWord] on a category of [WORD_POOL] returns a word of
    that category's list, and every word of the list is returned for some
    random draw.  On any other category it returns what it returns for
    "food", unless the category names a member of [Object.prototype]: the
    lookup then yields that member and the result is [undefined], whatever
    the draw. *)
Theorem getRandomWord_draws_from_list category k :
  match Obj.get category WORD_POOL with
  | Some list =>
      (exists w, getRandomWord category k = Some w /\ w ∈ list)
      /\ (forall w, w ∈ list -> exists k', getRandomWord category k' = Some w)
  | None =>
      if decide (category ∈ Object_prototype_names)
      then forall k', getRandomWord category k' = None
      else getRandomWord category k = getRandomWord (lit "food") k
  end.
Proof.
  unfold getRandomWord, WORD_POOL. cbn [Obj.get].
  repeat (case_decide; [apply pick_from_list; [discriminate|simpl; lia]|]).
  case_decide; [reflexivity|].
  rewrite decide_True by reflexivity. reflexivity.
Qed.

(** ** The shape of a hint *)

Lemma CHO_entries :
  Forall (fun e => exists c, e = [c] /\ inSyllableBlock c = false) CHO.
Proof. unfold CHO. repeat constructor; eexists; split; reflexivity. Qed.

Lemma hintOfUnit_single c :
  exists c', hintOfUnit c = [c'] /\ inSyllableBlock c' = false.
Proof.
  unfold hintOfUnit. destruct (inSyllableBlock c) eqn:Hc; [|eauto].
  pose proof (leadingConsonantIndex_lt c Hc) as Hlt.
  destruct (lookup_lt_is_Some_2 CHO _ Hlt) as [e He].
  rewrite (nth_lookup_Some _ _ [] _ He).
  eapply (proj1 (Forall_forall _ _) CHO_entries).
  eapply list_elem_of_lookup_2. exact He.
Qed.

Lemma hintSpec_outside word :
  Forall (fun c => inSyllableBlock c = false) word -> hintSpec word = word.
Proof.
  unfold hintSpec. induction 1 as [|c word Hc _ IH]; [reflexivity|].
  cbn [map concat]. unfold hintOfUnit at 1. rewrite Hc, IH. reflexivity.
Qed.

Lemma hintSpec_shape word :
  length (hintSpec word) = length word
  /\ Forall (fun c => inSyllableBlock c = false) (hintSpec word).
Proof.
  unfold hintSpec.
  induction word as [|c word [IHlen IHout]]; [split; [reflexivity|constructor]|].
  cbn [map concat]. destruct (hintOfUnit_single c) as (c' & -> & Hc').
  split; [simpl; rewrite IHlen; reflexivity|].
  simpl. constructor; assumption.
Qed.

(** X2. A hint has as many code units as the word, and none of them is a
    syllable of the block U+AC00..U+D7A3; so the hint of a hint is that
    hint, and a word without such syllables is its own hint. *)
Theorem makeChosungHint_keeps_length word :
  length (makeChosungHint word) = length word
  /\ Forall (fun c => inSyllableBlock c = false) (makeChosungHint word)
  /\ makeChosungHint (makeChosungHint word) = makeChosungHint word
  /\ (Forall (fun c => inSyllableBlock c = false) word ->
      makeChosungHint word = word).
Proof.
  assert (Heq : forall w, makeChosungHint w = hintSpec w)
    by (intros w; apply (makeChosungHint_units (length w)); lia).
  rewrite !Heq. destruct (hintSpec_shape word) as [Hlen Hout].
  split; [exact Hlen|]. split; [exact Hout|].
  split; [apply hintSpec_outside; exact Hout|apply hintSpec_outside].
Qed.

(** ** The next drawer *)

(** X3. Whatever the room, [chooseNextDrawerId] returns a key of the
    roster, and [null] only on an empty roster. *)
Theorem chooseNextDrawerId_picks_member room :
  match chooseNextDrawerId room with
  | Some d => d ∈ Obj.keys (Room.players room)
  | None => Room.players room = []
  end.
Proof.
  destruct (Room.players room) as [|[k p] o] eqn:Hp.
  - unfold chooseNextDrawerId. rewrite Hp. reflexivity.
  - destruct (chooseNextDrawerId_member room) as (d & Hd & Hin).
    + rewrite Hp. discriminate.
    + rewrite Hd, <- Hp. exact Hin.
Qed.

(** X4. With two players or more, the drawer being one of them, the next
    drawer is another player: nobody draws twice in a row. *)
Theorem chooseNextDrawerId_hands_over room d :
  NoDup (Obj.keys (Room.players room)) ->
  Forall (fun i => i <> []) (Obj.keys (Room.players room)) ->
  (2 <= length (Obj.keys (Room.players room)))%nat ->
  Room.drawerId room = Some d ->
  d ∈ Obj.keys (Room.players room) ->
  exists next,
    chooseNextDrawerId room = Some next
    /\ next ∈ Obj.keys (Room.players room)
    /\ next <> d.
Proof.
  intros Hnd Hne Hlen Hd Hin.
  apply list_elem_of_lookup_1 in Hin as [i Hi].
  pose proof (lookup_lt_Some _ _ _ Hi) as Hlt.
  rewrite (chooseNextDrawerId_at room Hnd Hne room i d eq_refl Hd Hi).
  set (ids := Obj.keys (Room.players room)) in *.
  assert (Hj : (S i mod length ids < length ids)%nat)
    by (apply Nat.mod_upper_bound; lia).
  destruct (lookup_lt_is_Some_2 ids _ Hj) as [next Hnext].
  exists next. split; [exact Hnext|]. split.
  - eapply list_elem_of_lookup_2. exact Hnext.
  - intros ->.
    assert (Heq : (S i mod length ids)%nat = i)
      by (eapply NoDup_lookup; eauto).
    destruct (decide (S i = length ids)) as [Hlast|Hmid].
    + rewrite Hlast, Nat.Div0.mod_same in Heq. lia.
    + rewrite Nat.mod_small in Heq by lia. lia.
Qed.

(** ** The registry and the room's timers *)

(** X5. [getOrCreateRoom] returns the room registered under the identifier
    once it is done: the one that was there, the state being untouched, or a
    new one with the defaults; sessions and timers stay as they are, nothing
    is emitted, and a second call returns the same room and changes
    nothing. *)
Theorem getOrCreateRoom_registers s roomId :
  exists room s',
    getOrCreateRoom roomId s = (room, s', [])
    /\ rooms s' = <[roomId := room]> (rooms s)
    /\ rooms s' !! roomId = Some room
    /\ socketRoomMap s' = socketRoomMap s
    /\ timers s' = timers s
    /\ nextHandle s' = nextHandle s
    /\ match rooms s !! roomId with
       | Some old => room = old /\ s' = s
       | None => room = newRoom roomId
       end
    /\ getOrCreateRoom roomId s' = (room, s', []).
Proof.
  destruct s as [rs sm ts nh]. unfold getOrCreateRoom. unfold_monad.
  cbn [rooms socketRoomMap timers nextHandle].
  destruct (rs !! roomId) as [old|] eqn:Hold; simpl.
  - exists old, (mkState rs sm ts nh). simpl. rewrite Hold.
    rewrite insert_id by exact Hold. repeat split; reflexivity.
  - eexists _, _. split; [reflexivity|]. simpl.
    rewrite lookup_insert_eq. repeat split; reflexivity.
Qed.

(** X6. [clearRoomTimers] leaves the room with both handles unset; the
    timers pending afterwards are those that were pending and carry neither
    of the two handles; the room is written only if a handle was set;
    nothing is emitted, and clearing again changes nothing. *)
Theorem clearRoomTimers_cancels_both s roomId room :
  let cleared := Room.set_hintTimerId None (Room.set_timerId None room) in
  exists s',
    clearRoomTimers roomId room s = (cleared, s', [])
    /\ timers s'
       = cancelIfSet (Room.hintTimerId room)
           (cancelIfSet (Room.timerId room) (timers s))
    /\ (forall t, t ∈ timers s' <->
          t ∈ timers s
          /\ Some (handle t) <> Room.timerId room
          /\ Some (handle t) <> Room.hintTimerId room)
    /\ rooms s'
       = match Room.timerId room, Room.hintTimerId room with
         | None, None => rooms s
         | _, _ => <[roomId := cleared]> (rooms s)
         end
    /\ socketRoomMap s' = socketRoomMap s
    /\ nextHandle s' = nextHandle s
    /\ clearRoomTimers roomId cleared s' = (cleared, s', []).
Proof.
  destruct s as [rs sm ts nh].
  destruct room as [rid ps d w n mx cat act tid hid].
  cbv zeta. unfold clearRoomTimers. unfold_monad. room_simpl.
  assert (Hin : forall t : Timer,
            t ∈ cancelIfSet hid (cancelIfSet tid ts) <->
            t ∈ ts /\ Some (handle t) <> tid /\ Some (handle t) <> hid).
  { intros t. destruct tid as [tid|], hid as [hid|]; unfold cancelIfSet, cancel;
      rewrite ?list_elem_of_filter; split; intros; break_hyps;
      repeat split; try assumption; try congruence. }
  destruct tid as [tid|], hid as [hid|]; simpl;
    eexists; (split; [reflexivity|]); room_simpl;
    rewrite ?insert_insert_eq;
    (split; [reflexivity|]); (split; [exact Hin|]);
    repeat split; reflexivity.
Qed.

(** ** Starting a round *)

(** [chooseNextDrawerId] reads the roster and the previous drawer only. *)
Ltac rotation_of o :=
  repeat match goal with
  | |- context [chooseNextDrawerId ?r] =>
      lazymatch r with
      | o => fail
      | _ => change (chooseNextDrawerId r) with (chooseNextDrawerId o)
      end
  end.

Lemma startRound_round_start s roomId k room :
  rooms s !! roomId = Some room ->
  Room.players room <> [] ->
  Room.round room + 1 <= Room.maxRounds room ->
  startRound roomId k s = roundStart roomId k room s.
Proof.
  destruct s as [rs sm ts nh]. unfold roundStart.
  cbn [rooms socketRoomMap timers nextHandle].
  intros Hroom Hplayers Hround. cbv zeta.
  unfold startRound. unfold_monad. simpl. rewrite Hroom. simpl.
  destruct room as [rid ps d w n mx cat act tid hid]. room_simpl.
  destruct ps as [|p ps]; [congruence|]. simpl.
  assert (Hle : (n + 1 >? mx) = false)
    by (rewrite Z.gtb_ltb; apply Z.ltb_ge; lia).
  unfold startedRoom, wordUnicast, roomStateOf, getPlayerList. room_simpl.
  destruct tid as [tid|], hid as [hid|]; simpl; rewrite Hle; simpl;
    match type of Hroom with
    | _ = Some ?o =>
        rotation_of o; destruct (chooseNextDrawerId o) as [[|c dr]|]
    end;
    destruct (getRandomWord cat k) as [[|c' wd]|];
    repeat (progress (simpl; room_simpl;
                      rewrite ?lookup_insert_eq, ?insert_insert_eq));
    rewrite <- ?app_assoc; reflexivity.
Qed.

(** X7. [startRound] on a registered room with a player, the incremented
    counter not exceeding [maxRounds]: the room gets the next drawer, a word
    of its category, the incremented counter and [roundActive]; the two
    timers it held are cancelled and replaced by a hint timer at half the
    round's duration and a round timer at the full duration; the emissions
    are, in this order, [clearCanvas], an empty hint, [roundStarted], the
    word to the drawer alone (if there is a drawer and a word), and the room
    state. *)
Theorem startRound_starts_round s roomId k room :
  rooms s !! roomId = Some room ->
  Room.players room <> [] ->
  Room.round room + 1 <= Room.maxRounds room ->
  startRound roomId k s = roundStart roomId k room s
  /\ rooms (exec (startRound roomId k) s) !! roomId
     = Some (startedRoom room k (nextHandle s))
  /\ length (timers (exec (startRound roomId k) s))
     = (length (cancelIfSet (Room.hintTimerId room)
                  (cancelIfSet (Room.timerId room) (timers s))) + 2)%nat.
Proof.
  intros Hroom Hplayers Hround.
  pose proof (startRound_round_start s roomId k room Hroom Hplayers Hround) as Heq.
  split; [exact Heq|].
  unfold exec. rewrite Heq. unfold roundStart. cbn [fst snd rooms timers].
  split; [apply lookup_insert_eq|].
  rewrite length_app. reflexivity.
Qed.

Lemma chooseNextDrawerId_first room :
  Room.drawerId room = None ->
  chooseNextDrawerId room = head (Obj.keys (Room.players room)).
Proof.
  intros Hd. unfold chooseNextDrawerId. rewrite Hd.
  destruct (Obj.keys (Room.players room)); reflexivity.
Qed.

Lemma startGame_idle s sid k roomId room :
  socketRoomMap s !! sid = Some roomId -> roomId <> [] ->
  rooms s !! roomId = Some room ->
  Room.roundActive room = false ->
  startGame sid k s
  = ( emit roomId (systemMessage gameStartsText) ;; startRound roomId k )
      (mkState (<[roomId := resetRoom room]> (rooms s))
         (socketRoomMap s) (timers s) (nextHandle s)).
Proof.
  destruct s as [rs sm ts nh]. cbn [rooms socketRoomMap timers nextHandle].
  intros Hsess Hne Hroom Hidle.
  destruct roomId as [|c r]; [congruence|].
  unfold startGame, resetRoom.
  unfold exec, output, bind, ret, skip, rooms_get, store, socketRoomMap_get,
    getOrCreateRoom, bind, ret, rooms_get.
  simpl. rewrite Hsess. simpl. rewrite Hroom. simpl. rewrite Hidle. simpl.
  unfold emit.
  match goal with
  | |- context [startRound ?r ?k ?st] =>
      destruct (startRound r k st) as [[[] s2] out2]
  end.
  reflexivity.
Qed.

Lemma startGame_active s sid k roomId room :
  socketRoomMap s !! sid = Some roomId ->
  rooms s !! roomId = Some room ->
  Room.roundActive room = true ->
  startGame sid k s = (tt, s, []).
Proof.
  destruct s as [rs sm ts nh]. cbn [rooms socketRoomMap timers nextHandle].
  intros Hsess Hroom Hact.
  unfold startGame. unfold_monad. simpl. rewrite Hsess.
  destruct roomId as [|c r]; [reflexivity|].
  simpl. rewrite Hroom. simpl. rewrite Hact. reflexivity.
Qed.

(** X8. [startGame] from a connection bound to a registered room does
    nothing while a round is active.  Otherwise it announces the game and
    starts round 1: the counter is reset, the first player of the roster
    draws whoever drew before, and the roster, hence every score, stays as
    it is. *)
Theorem startGame_starts_round_one s sid k roomId room :
  socketRoomMap s !! sid = Some roomId -> roomId <> [] ->
  rooms s !! roomId = Some room ->
  (Room.roundActive room = true -> startGame sid k s = (tt, s, []))
  /\ (Room.roundActive room = false ->
      Room.players room <> [] -> 1 <= Room.maxRounds room ->
      let started := startedRoom (resetRoom room) k (nextHandle s) in
      rooms (exec (startGame sid k) s) = <[roomId := started]> (rooms s)
      /\ Room.round started = 1
      /\ Room.drawerId started = head (Obj.keys (Room.players room))
      /\ Room.players started = Room.players room
      /\ output (startGame sid k) s
         = io_to_emit roomId (systemMessage gameStartsText)
           :: [ io_to_emit roomId clearCanvas;
                io_to_emit roomId (hintUpdated []);
                io_to_emit roomId
                  (roundStarted 1 (Room.maxRounds room)
                     (head (Obj.keys (Room.players room))) ROUND_DURATION_SEC) ]
           ++ wordUnicast started
           ++ [ io_to_emit roomId (roomStateOf started) ]).
Proof.
  intros Hsess Hne Hroom. split.
  - intros Hact. exact (startGame_active s sid k roomId room Hsess Hroom Hact).
  - intros Hidle Hplayers Hmax. cbv zeta.
    pose proof (startGame_idle s sid k roomId room Hsess Hne Hroom Hidle) as Heq.
    unfold bind, emit in Heq.
    rewrite (startRound_round_start _ roomId k (resetRoom room)) in Heq.
    + unfold exec, output. rewrite Heq. unfold roundStart.
      cbn [rooms socketRoomMap timers nextHandle fst snd].
      rewrite insert_insert_eq.
      rewrite (chooseNextDrawerId_first (resetRoom room) eq_refl).
      unfold startedRoom, resetRoom. room_simpl.
      rewrite (chooseNextDrawerId_first
                 (Room.set_drawerId None
                    (Room.set_currentWord None (Room.set_round 0 room))) eq_refl).
      room_simpl. repeat split; reflexivity.
    + cbn [rooms]. apply lookup_insert_eq.
    + exact Hplayers.
    + unfold resetRoom. room_simpl. lia.
Qed.

(** ** The secret word *)

Ltac in_output H :=
  repeat (apply elem_of_cons in H as [H|H]; [try discriminate H|]);
  try (apply elem_of_nil in H; contradiction).

Ltac secret_by_cases :=
  run_handler; intros Hin; in_output Hin; simplify_eq;
  eexists _, _; (split; [apply lookup_insert_eq|]); room_simpl;
  repeat split; try reflexivity; try discriminate.

(** X9. Whatever the event and the state, a [wordForDrawer] message is
    addressed to a connection (never to a room) that, once the handler is
    done, is the drawer of a room with an active round, and the word it
    carries is that room's current word. *)
Theorem wordForDrawer_goes_to_drawer toLowerCase e s target w :
  io_to_emit target (wordForDrawer w) ∈ output (handle_event toLowerCase e) s ->
  exists roomId room,
    rooms (exec (handle_event toLowerCase e) s) !! roomId = Some room
    /\ Room.roundActive room = true
    /\ Room.drawerId room = Some target
    /\ Room.currentWord room = Some w
    /\ target <> [].
Proof.
  destruct s as [rs sm ts nh].
  destruct e; unfold handle_event.
  - unfold joinRoom.
    generalize (or_else (trim roomId) randomId) as tgt.
    generalize (or_else (trim nickname) anonymousNick) as nick.
    intros nick tgt. secret_by_cases.
  - unfold setCategory. secret_by_cases.
  - unfold startGame, startRound. secret_by_cases.
  - unfold drawRelay. secret_by_cases.
  - unfold clearCanvasRelay. secret_by_cases.
  - unfold answer. secret_by_cases.
  - unfold chatMessage. secret_by_cases.
  - unfold disconnect. secret_by_cases.
  - unfold fireTimer, runCallback, hintCallback, timeoutCallback, startRound.
    secret_by_cases.
Qed.

(** ** The timers of a round *)

(** X10. The round timer of a registered room comes due.  If the round is
    still active it ends: [roundEnded] with the time-is-up reason,
    [clearCanvas], an empty hint and the room state are broadcast,
    [roundActive] is cleared and the next [startRound] is scheduled 3000 ms
    later.  If the round has ended before, the timer is consumed and
    nothing else happens. *)
Theorem round_timer_ends_active_round_only s h k roomId room :
  pendingCallback h s = Some (TimeoutCallback roomId) ->
  rooms s !! roomId = Some room ->
  fireTimer h k s
  = if Room.roundActive room then
      (tt,
       mkState (<[roomId := Room.set_roundActive false room]> (rooms s))
         (socketRoomMap s)
         (cancel h (timers s)
          ++ [mkTimer (nextHandle s) COOLDOWN_MS (CooldownCallback roomId)])
         (S (nextHandle s)),
       [ io_to_emit roomId (roundEnded timeIsUpText (Room.round room));
         io_to_emit roomId clearCanvas;
         io_to_emit roomId (hintUpdated []);
         io_to_emit roomId (roomStateOf (Room.set_roundActive false room)) ])
    else
      (tt, mkState (rooms s) (socketRoomMap s) (cancel h (timers s)) (nextHandle s),
       []).
Proof.
  destruct s as [rs sm ts nh]. unfold pendingCallback.
  cbn [rooms socketRoomMap timers nextHandle]. intros Hcb Hroom.
  unfold fireTimer. unfold_monad. simpl. rewrite Hcb. simpl.
  unfold timeoutCallback. unfold_monad. simpl. rewrite Hroom. simpl.
  destruct (Room.roundActive room); simpl; [|reflexivity].
  rewrite lookup_insert_eq. reflexivity.
Qed.

(** X11. The hint timer of a registered room comes due: no room and no
    session changes and nothing is scheduled; the consonant hint of the
    current word is broadcast if the round is active and has a word, and
    nothing is emitted otherwise. *)
Theorem hint_timer_reveals_consonants s h k roomId room :
  pendingCallback h s = Some (HintCallback roomId) ->
  rooms s !! roomId = Some room ->
  fireTimer h k s
  = (tt, mkState (rooms s) (socketRoomMap s) (cancel h (timers s)) (nextHandle s),
     match Room.roundActive room, Room.currentWord room with
     | true, Some (c :: w) =>
         [io_to_emit roomId (hintUpdated (makeChosungHint (c :: w)))]
     | _, _ => []
     end).
Proof.
  destruct s as [rs sm ts nh]. unfold pendingCallback.
  cbn [rooms socketRoomMap timers nextHandle]. intros Hcb Hroom.
  unfold fireTimer. unfold_monad. simpl. rewrite Hcb. simpl.
  unfold hintCallback. unfold_monad. simpl. rewrite Hroom. simpl.
  destruct (Room.roundActive room), (Room.currentWord room) as [[|c w]|];
    reflexivity.
Qed.

(** ** Guesses outside a round *)

(** X12. [answer] from a player of a registered room: a message of blanks
    only does nothing; otherwise, while no round is active or no word is
    set, the trimmed message is relayed as plain chat under the player's
    nickname and the state stays as it is: no score changes and no round
    ends. *)
Theorem answer_outside_round_is_chat toLowerCase s sid message roomId room player :
  socketRoomMap s !! sid = Some roomId -> roomId <> [] ->
  rooms s !! roomId = Some room ->
  Obj.get sid (Room.players room) = Some player ->
  (trim message = [] -> answer toLowerCase sid message s = (tt, s, []))
  /\ (trim message <> [] ->
      Room.roundActive room = false \/ truthy (Room.currentWord room) = false ->
      answer toLowerCase sid message s
      = (tt, s,
         [io_to_emit roomId (chat (Player.nickname player) (trim message) false)])).
Proof.
  destruct s as [rs sm ts nh]. cbn [rooms socketRoomMap].
  intros Hsess Hrid Hroom Hplayer.
  destruct roomId as [|c r]; [congruence|].
  split.
  - intros Hblank. unfold answer. unfold_monad. simpl.
    rewrite Hsess; simpl; rewrite Hroom; simpl. rewrite Hplayer, Hblank.
    reflexivity.
  - intros Htext Hidle. unfold answer. unfold_monad. simpl.
    rewrite Hsess; simpl; rewrite Hroom; simpl. rewrite Hplayer.
    destruct (trim message) as [|t0 text]; [congruence|]. simpl.
    destruct Hidle as [Hidle|Hidle].
    + rewrite Hidle. reflexivity.
    + destruct (Room.roundActive room); [|reflexivity].
      destruct (Room.currentWord room) as [[|c' w]|]; try reflexivity.
      discriminate.
Qed.

(** ** Leaving by disconnecting *)

(** X13. [disconnect] of a connection bound to a registered room: its
    record and its binding are removed and the departure is announced under
    its nickname.  If the roster is then empty the room is removed.  If the
    connection was the drawer of an active round, the round ends and the
    next [startRound] is scheduled 3000 ms later, without a room-state
    broadcast.  Otherwise the room state is broadcast.  The records of the
    other players stay as they are. *)
Theorem disconnect_leaves_room s sid roomId room :
  socketRoomMap s !! sid = Some roomId -> roomId <> [] ->
  rooms s !! roomId = Some room ->
  let nick :=
    match Obj.get sid (Room.players room) with
    | Some player => Player.nickname player
    | None => unknownNick
    end in
  let left := Room.set_players (Obj.delete sid) room in
  let bye := io_to_emit roomId (systemMessage (nick ++ leftSuffix)) in
  disconnect sid s
  = (if decide (Room.players left = []) then
       (tt,
        mkState (delete roomId (rooms s)) (delete sid (socketRoomMap s))
          (timers s) (nextHandle s),
        [bye])
     else if bool_decide (Room.drawerId room = Some sid) && Room.roundActive room then
       (tt,
        mkState (<[roomId := Room.set_roundActive false left]> (rooms s))
          (delete sid (socketRoomMap s))
          (timers s ++ [mkTimer (nextHandle s) COOLDOWN_MS (CooldownCallback roomId)])
          (S (nextHandle s)),
        [ bye;
          io_to_emit roomId (roundEnded drawerLeftText (Room.round room));
          io_to_emit roomId clearCanvas;
          io_to_emit roomId (hintUpdated []) ])
     else
       (tt,
        mkState (<[roomId := left]> (rooms s)) (delete sid (socketRoomMap s))
          (timers s) (nextHandle s),
        [bye; io_to_emit roomId (roomStateOf left)]))
  /\ (forall other, other <> sid ->
        Obj.get other (Room.players left) = Obj.get other (Room.players room)).
Proof.
  destruct s as [rs sm ts nh]. cbn [rooms socketRoomMap timers nextHandle].
  intros Hsess Hrid Hroom. cbv zeta. split.
  - destruct roomId as [|c r]; [congruence|].
    unfold disconnect. unfold_monad. simpl. rewrite Hsess. simpl.
    rewrite Hroom. simpl. room_simpl.
    destruct (Obj.delete sid (Room.players room)) as [|kv o] eqn:Hdel; simpl.
    + rewrite delete_insert_eq. reflexivity.
    + destruct (bool_decide (Room.drawerId room = Some sid) && Room.roundActive room);
        simpl; rewrite ?lookup_insert_eq, ?insert_insert_eq; reflexivity.
  - intros other Hne. room_simpl. rewrite Obj_get_delete.
    rewrite decide_False by congruence. reflexivity.
Qed.

(** ** Rosters and bindings in step *)

Ltac use_members H :=
  repeat match goal with
  | E : ?rs !! ?rid = Some ?room, Hin : ?x ∈ Obj.keys (Room.players ?room) |- _ =>
      lazymatch goal with
      | _ : _ !! x = Some rid |- _ => fail
      | _ => let Hb := fresh "Hb" in
             assert (Hb := H rid room x E ltac:(first [assumption|discriminate]) Hin)
      end
  end.

Ltac members_by_cases H :=
  run_handler; intros rid' room' sid' Hr Hne Hin; map_cases; simplify_eq;
  room_simpl;
  rewrite ?Obj_keys_alter, ?Obj_keys_set, ?Obj_keys_delete in Hin;
  repeat match goal with
  | Hx : _ /\ _ |- _ => destruct Hx
  | Hx : _ \/ _ |- _ => destruct Hx
  end; simplify_eq;
  try match goal with
      | Hx : _ ∈ Obj.keys [] |- _ => apply elem_of_nil in Hx; contradiction
      end;
  use_members H; map_cases; simplify_eq; try congruence; try reflexivity; eauto.

Lemma handle_event_members_bound toLowerCase e s :
  members_bound s -> members_bound (exec (handle_event toLowerCase e) s).
Proof.
  destruct s as [rs sm ts nh]. unfold members_bound.
  cbn [rooms socketRoomMap]. intros H.
  destruct e; unfold handle_event.
  - unfold joinRoom.
    generalize (or_else (trim roomId) randomId) as target.
    generalize (or_else (trim nickname) anonymousNick) as nick.
    intros nick target. members_by_cases H.
  - unfold setCategory. members_by_cases H.
  - unfold startGame, startRound. members_by_cases H.
  - unfold drawRelay. members_by_cases H.
  - unfold clearCanvasRelay. members_by_cases H.
  - unfold answer. members_by_cases H.
  - unfold chatMessage. members_by_cases H.
  - unfold disconnect. members_by_cases H.
  - unfold fireTimer, runCallback, hintCallback, timeoutCallback, startRound.
    members_by_cases H.
Qed.

Lemma reachable_members_bound toLowerCase allowed s :
  reachable_by toLowerCase allowed s -> members_bound s.
Proof.
  induction 1 as [|s e _ IH _].
  - intros roomId room sid Hr. simpl in Hr. rewrite lookup_empty in Hr.
    discriminate.
  - apply handle_event_members_bound. exact IH.
Qed.

Lemma Obj_delete_absent {V} k (o : Obj.t V) :
  k ∉ Obj.keys o -> Obj.delete k o = o.
Proof.
  induction o as [|[k' v'] o IH]; simpl; [reflexivity|].
  intros Hk. apply not_elem_of_cons in Hk as [Hne Hk].
  rewrite decide_False by congruence. rewrite IH by exact Hk. reflexivity.
Qed.

Lemma Obj_keys_set_new {V} k (v : V) o :
  k ∉ Obj.keys o -> Obj.keys (Obj.set k v o) = Obj.keys o ++ [k].
Proof.
  induction o as [|[k' v'] o IH]; simpl; [reflexivity|].
  intros Hk. apply not_elem_of_cons in Hk as [Hne Hk].
  rewrite decide_False by congruence. simpl. rewrite IH by exact Hk.
  reflexivity.
Qed.

Lemma Obj_keys_set_after_delete {V} k (v : V) o :
  Obj.keys (Obj.set k v (Obj.delete k o)) = Obj.keys (Obj.delete k o) ++ [k].
Proof.
  apply Obj_keys_set_new. rewrite Obj_keys_delete. tauto.
Qed.

Lemma joinRoom_roster s sid roomId nickname randomId :
  members_bound s ->
  or_else (trim roomId) randomId <> [] ->
  Obj.keys (rosterOf (exec (joinRoom sid roomId nickname randomId) s)
              (or_else (trim roomId) randomId))
  = Obj.keys (Obj.delete sid (rosterOf s (or_else (trim roomId) randomId)))
    ++ [sid].
Proof.
  destruct s as [rs sm ts nh]. unfold members_bound, rosterOf.
  cbn [rooms socketRoomMap]. intros Hm.
  unfold joinRoom.
  generalize (or_else (trim roomId) randomId) as target.
  generalize (or_else (trim nickname) anonymousNick) as nick.
  intros nick target Hne.
  run_handler; map_cases; simplify_eq; room_simpl;
    try apply Obj_keys_set_after_delete; try reflexivity;
    match goal with
    | Hroom : rs !! ?tg = Some ?room |- context [Obj.delete sid (Room.players ?room)] =>
        assert (Habsent : sid ∉ Obj.keys (Room.players room))
          by (intros Hin; pose proof (Hm tg room sid Hroom Hne Hin); congruence);
        rewrite (Obj_delete_absent sid _ Habsent);
        apply Obj_keys_set_new; exact Habsent
    end.
Qed.

Lemma joinRoom_keeps_others s sid roomId nickname randomId other :
  other <> sid ->
  Obj.get other (rosterOf (exec (joinRoom sid roomId nickname randomId) s)
                   (or_else (trim roomId) randomId))
  = Obj.get other (rosterOf s (or_else (trim roomId) randomId)).
Proof.
  destruct s as [rs sm ts nh]. unfold rosterOf. cbn [rooms socketRoomMap].
  intros Hother. unfold joinRoom.
  generalize (or_else (trim roomId) randomId) as target.
  generalize (or_else (trim nickname) anonymousNick) as nick.
  intros nick target.
  run_handler; map_cases; simplify_eq; room_simpl;
    rewrite ?Obj_get_set, ?Obj_get_delete;
    repeat rewrite decide_False by congruence; reflexivity.
Qed.

(** X14. In a reachable state, whoever joins a room with a non-empty
    identifier ends up last in its roster, the others keeping their order
    and their records: a newcomer is appended, and a connection that joins
    the room it is already in is taken out and appended again, so that it
    draws after everybody else. *)
Theorem joinRoom_joiner_goes_last toLowerCase s sid roomId nickname randomId :
  reachable toLowerCase s ->
  or_else (trim roomId) randomId <> [] ->
  let target := or_else (trim roomId) randomId in
  let s' := exec (joinRoom sid roomId nickname randomId) s in
  Obj.keys (rosterOf s' target)
  = Obj.keys (Obj.delete sid (rosterOf s target)) ++ [sid]
  /\ (forall other, other <> sid ->
        Obj.get other (rosterOf s' target) = Obj.get other (rosterOf s target)).
Proof.
  intros Hreach Hne. cbv zeta. split.
  - apply joinRoom_roster; [|exact Hne].
    exact (reachable_members_bound _ _ _ Hreach).
  - intros other Hother. apply joinRoom_keeps_others. exact Hother.
Qed.

(** X15. In a reachable state the session bindings and the rosters agree:
    a bound connection is a player of the room it is bound to, a player of
    a room with a non-empty identifier is bound to that room, and so no
    connection is a player of two such rooms. *)
Theorem player_of_one_room toLowerCase s :
  reachable toLowerCase s ->
  (forall sid roomId,
     socketRoomMap s !! sid = Some roomId -> member_of sid (rooms s !! roomId))
  /\ (forall roomId room sid,
        rooms s !! roomId = Some room -> roomId <> [] ->
        sid ∈ Obj.keys (Room.players room) ->
        socketRoomMap s !! sid = Some roomId)
  /\ (forall r1 r2 room1 room2 sid,
        rooms s !! r1 = Some room1 -> rooms s !! r2 = Some room2 ->
        r1 <> [] -> r2 <> [] ->
        sid ∈ Obj.keys (Room.players room1) ->
        sid ∈ Obj.keys (Room.players room2) ->
        r1 = r2).
Proof.
  intros Hreach.
  pose proof (reachable_sessions_ok _ _ _ Hreach) as Hs.
  pose proof (reachable_members_bound _ _ _ Hreach) as Hm.
  split; [exact Hs|]. split; [exact Hm|].
  intros r1 r2 room1 room2 sid H1 H2 Hn1 Hn2 Hin1 Hin2.
  pose proof (Hm r1 room1 sid H1 Hn1 Hin1) as Hb1.
  pose proof (Hm r2 room2 sid H2 Hn2 Hin2) as Hb2.
  congruence.
Qed.

(** ** What an event leaves alone *)

Ltac not_addressed :=
  repeat match goal with
  | H : _ ∉ _ :: _ |- _ => apply not_elem_of_cons in H as [? H]
  end.

Ltac frame_by_cases :=
  run_handler; intros Hout; not_addressed; map_cases; simplify_eq;
  try congruence; try reflexivity.

Lemma handle_event_rooms_frame toLowerCase e s roomId :
  roomId ∉ addressed s e ->
  rooms (exec (handle_event toLowerCase e) s) !! roomId = rooms s !! roomId.
Proof.
  destruct s as [rs sm ts nh].
  unfold addressed, pendingCallback. cbn [rooms socketRoomMap timers].
  destruct e; unfold handle_event.
  - unfold joinRoom.
    generalize (or_else (trim roomId0) randomId) as target.
    generalize (or_else (trim nickname) anonymousNick) as nick.
    intros nick target. frame_by_cases.
  - unfold setCategory. frame_by_cases.
  - unfold startGame, startRound. frame_by_cases.
  - unfold drawRelay. frame_by_cases.
  - unfold clearCanvasRelay. frame_by_cases.
  - unfold answer. frame_by_cases.
  - unfold chatMessage. frame_by_cases.
  - unfold disconnect. frame_by_cases.
  - unfold fireTimer, runCallback, hintCallback, timeoutCallback, startRound.
    frame_by_cases.
Qed.

Ltac sessions_frame_by_cases :=
  run_handler; map_cases; simplify_eq; try congruence; try reflexivity.

Lemma handle_event_sessions_frame toLowerCase e s sid :
  sender e <> Some sid ->
  socketRoomMap (exec (handle_event toLowerCase e) s) !! sid
  = socketRoomMap s !! sid.
Proof.
  destruct s as [rs sm ts nh]. cbn [rooms socketRoomMap timers].
  intros Hs.
  destruct e; cbn [sender] in Hs; unfold handle_event.
  - unfold joinRoom.
    generalize (or_else (trim roomId) randomId) as target.
    generalize (or_else (trim nickname) anonymousNick) as nick.
    intros nick target. sessions_frame_by_cases.
  - unfold setCategory. sessions_frame_by_cases.
  - unfold startGame, startRound. sessions_frame_by_cases.
  - unfold drawRelay. sessions_frame_by_cases.
  - unfold clearCanvasRelay. sessions_frame_by_cases.
  - unfold answer. sessions_frame_by_cases.
  - unfold chatMessage. sessions_frame_by_cases.
  - unfold disconnect. sessions_frame_by_cases.
  - unfold fireTimer, runCallback, hintCallback, timeoutCallback, startRound.
    sessions_frame_by_cases.
Qed.

Lemma handle_event_unaddressed toLowerCase e s :
  addressed s e = [] ->
  handle_event toLowerCase e s = (tt, settled e s, relayed e).
Proof.
  destruct s as [rs sm ts nh].
  unfold addressed, pendingCallback, settled, relayed.
  cbn [rooms socketRoomMap timers nextHandle].
  destruct e; unfold handle_event; try discriminate.
  - unfold setCategory. unfold_monad. simpl.
    destruct (sm !! sid); [discriminate|reflexivity].
  - unfold startGame. unfold_monad. simpl.
    destruct (sm !! sid); [discriminate|reflexivity].
  - reflexivity.
  - reflexivity.
  - unfold answer. unfold_monad. simpl.
    destruct (sm !! sid); [discriminate|reflexivity].
  - unfold chatMessage. unfold_monad. simpl.
    destruct (sm !! sid); [discriminate|reflexivity].
  - unfold disconnect. unfold_monad. simpl.
    destruct (sm !! sid); [discriminate|reflexivity].
  - unfold fireTimer. unfold_monad. simpl.
    destruct (head (filter (fun t => handle t = h) ts)); [discriminate|reflexivity].
Qed.

(** X16. Whatever the state, an event changes no room but those it is
    addressed to (the room its connection is bound to and, for a join, the
    room joined; for a timer, the room of its callback), and no session
    binding but its sender's.  An event addressed to no room leaves the
    state as it is (a fired timer being no longer pending) and emits
    nothing, except that [draw] and [clearCanvas] are relayed, whatever
    the sender is bound to, to the group named in the payload. *)
Theorem events_touch_addressed_rooms_only toLowerCase e s :
  (forall roomId,
     roomId ∉ addressed s e ->
     rooms (exec (handle_event toLowerCase e) s) !! roomId = rooms s !! roomId)
  /\ (forall sid,
        sender e <> Some sid ->
        socketRoomMap (exec (handle_event toLowerCase e) s) !! sid
        = socketRoomMap s !! sid)
  /\ (addressed s e = [] ->
      handle_event toLowerCase e s = (tt, settled e s, relayed e)).
Proof.
  split; [|split].
  - intros roomId. apply handle_event_rooms_frame.
  - intros sid. apply handle_event_sessions_frame.
  - apply handle_event_unaddressed.
Qed.

(** ** Well-formed records *)

Lemma or_else_nonempty x y : y <> [] -> or_else x y <> [].
Proof. unfold or_else. destruct x; simpl; [auto|discriminate]. Qed.

Lemma Obj_NoDup_set {V} k (v : V) o :
  NoDup (Obj.keys o) -> NoDup (Obj.keys (Obj.set k v o)).
Proof.
  induction o as [|[k' v'] o IH]; simpl.
  - intros _. apply NoDup_singleton.
  - intros Hnd. apply NoDup_cons in Hnd as [Hk' Hnd].
    destruct (decide (k' = k)) as [->|Hne]; simpl.
    + apply NoDup_cons. split; assumption.
    + apply NoDup_cons. split; [|auto].
      change (k' ∉ Obj.keys (Obj.set k v o)).
      rewrite Obj_keys_set. intros [?|?]; [congruence|contradiction].
Qed.

Lemma Obj_NoDup_delete {V} k (o : Obj.t V) :
  NoDup (Obj.keys o) -> NoDup (Obj.keys (Obj.delete k o)).
Proof.
  induction o as [|[k' v'] o IH]; simpl; [auto|].
  intros Hnd. apply NoDup_cons in Hnd as [Hk' Hnd].
  destruct (decide (k' = k)) as [->|Hne]; simpl; [auto|].
  apply NoDup_cons. split; [|auto].
  change (k' ∉ Obj.keys (Obj.delete k o)).
  rewrite Obj_keys_delete. tauto.
Qed.

Lemma newRoom_record_ok roomId : record_ok roomId (newRoom roomId).
Proof.
  unfold record_ok, newRoom. room_simpl.
  repeat split; try reflexivity; try lia; try discriminate.
  apply NoDup_nil. exact I.
Qed.

Ltac use_records H :=
  repeat match goal with
  | E : ?m !! ?k = Some ?r |- _ =>
      lazymatch goal with
      | _ : record_ok k r |- _ => fail
      | _ => assert (record_ok k r) by exact (H k r E)
      end
  end.

Ltac solve_players :=
  let sid := fresh "sid" in
  let p := fresh "p" in
  let Hget := fresh "Hget" in
  intros sid p Hget;
  rewrite ?Obj_get_set, ?Obj_get_delete, ?Obj_get_alter in Hget;
  cbn [Obj.get] in Hget;
  repeat match type of Hget with
  | context [decide (?a = ?b)] => destruct (decide (a = b)); [subst|]
  end;
  try discriminate;
  first [ solve [eauto]
        | injection Hget as <-; split; [reflexivity|assumption]
        | match type of Hget with
          | _ <$> ?x = Some _ =>
              let q := fresh "q" in
              let Hq := fresh "Hq" in
              destruct x as [q|] eqn:Hq; [|discriminate];
              injection Hget as <-;
              match goal with
              | Hall : forall sid p, Obj.get sid _ = Some p -> player_ok sid p |- _ =>
                  destruct (Hall _ _ Hq); split; assumption
              end
          end ].

Ltac solve_roster :=
  rewrite ?Obj_keys_alter;
  repeat first [ assumption | apply Obj_NoDup_set | apply Obj_NoDup_delete
               | apply NoDup_nil; exact I ].

Ltac solve_record_ok :=
  unfold record_ok in *; room_simpl; break_hyps;
  repeat match goal with
  | |- _ /\ _ => split
  end;
  first [ assumption | reflexivity | lia | discriminate
        | apply or_else_nonempty; discriminate
        | solve [solve_roster]
        | solve_players ].

Ltac records_by_cases H :=
  run_handler; map_cases; simplify_eq; rewrite ?insert_insert_eq, ?delete_insert_eq;
  repeat first [ assumption | apply map_Forall_insert_2
               | apply map_Forall_delete | apply newRoom_record_ok ];
  use_records H; solve_record_ok.

Lemma handle_event_records_ok toLowerCase e s :
  records_ok s -> records_ok (exec (handle_event toLowerCase e) s).
Proof.
  destruct s as [rs sm ts nh]. unfold records_ok.
  cbn [rooms socketRoomMap]. intros H.
  destruct e; unfold handle_event.
  - unfold joinRoom.
    assert (Hnick : or_else (trim nickname) anonymousNick <> [])
      by (apply or_else_nonempty; discriminate).
    revert Hnick.
    generalize (or_else (trim roomId) randomId) as target.
    generalize (or_else (trim nickname) anonymousNick) as nick.
    intros nick target Hnick. records_by_cases H.
  - unfold setCategory. records_by_cases H.
  - unfold startGame, startRound. records_by_cases H.
  - unfold drawRelay. records_by_cases H.
  - unfold clearCanvasRelay. records_by_cases H.
  - unfold answer. records_by_cases H.
  - unfold chatMessage. records_by_cases H.
  - unfold disconnect. records_by_cases H.
  - unfold fireTimer, runCallback, hintCallback, timeoutCallback, startRound.
    records_by_cases H.
Qed.

(** X17. In a reachable state every registered room carries the
    identifier it is registered under, [maxRounds] 5, a round counter that
    is not negative and a category that is not empty; the keys of its roster
    are pairwise distinct, and every player record carries the connection
    it is stored under and a nickname that is not empty. *)
Theorem registered_records_are_well_formed toLowerCase s roomId room :
  reachable toLowerCase s ->
  rooms s !! roomId = Some room ->
  record_ok roomId room.
Proof.
  intros Hreach. revert roomId room. change (records_ok s).
  induction Hreach as [|s e _ IH _].
  - unfold records_ok. simpl. apply map_Forall_empty.
  - apply handle_event_records_ok. exact IH.
Qed.

(** ** The round counter *)

Ltac solve_step :=
  room_simpl; bools_to_Z;
  repeat match goal with
  | |- _ /\ _ => split
  end;
  first [ reflexivity | lia | congruence ].

Ltac step_by_cases :=
  run_handler; map_cases; intros; simplify_eq; solve_step.

(** X18. Through an event that is not a [startGame] from one of its
    connections, a room that stays registered keeps its identifier and its
    [maxRounds], and its round counter stays or goes up by one: only
    [startGame] ever takes it back. *)
Theorem round_counter_step toLowerCase s e roomId room room' :
  rooms s !! roomId = Some room ->
  ~ restarts roomId s e ->
  rooms (exec (handle_event toLowerCase e) s) !! roomId = Some room' ->
  Room.id room' = Room.id room
  /\ Room.maxRounds room' = Room.maxRounds room
  /\ Room.round room <= Room.round room' <= Room.round room + 1.
Proof.
  destruct s as [rs sm ts nh]. cbn [rooms socketRoomMap].
  intros Hroom Hno. revert room'.
  destruct e; unfold handle_event.
  - unfold joinRoom.
    generalize (or_else (trim roomId0) randomId) as target.
    generalize (or_else (trim nickname) anonymousNick) as nick.
    intros nick target. step_by_cases.
  - unfold setCategory. step_by_cases.
  - assert (Hsid : sm !! sid <> Some roomId).
    { intros Hb. apply Hno. exists sid, k. auto. }
    unfold startGame, startRound. step_by_cases.
  - unfold drawRelay. step_by_cases.
  - unfold clearCanvasRelay. step_by_cases.
  - unfold answer. step_by_cases.
  - unfold chatMessage. step_by_cases.
  - unfold disconnect. step_by_cases.
  - unfold fireTimer, runCallback, hintCallback, timeoutCallback, startRound.
    step_by_cases.
Qed.

(** ** Pending timers *)

Ltac split_pending :=
  repeat match goal with
  | Ht : _ ∈ _ ++ _ |- _ => apply elem_of_app in Ht as [Ht|Ht]
  | Ht : _ ∈ _ :: _ |- _ => apply elem_of_cons in Ht as [Ht|Ht]
  | Ht : _ ∈ [] |- _ => apply elem_of_nil in Ht; contradiction
  | Ht : _ ∈ cancel _ _ |- _ => apply cancel_subseteq in Ht
  end.

Ltac use_timers Hts :=
  repeat match goal with
  | Ht : ?t ∈ ?ts |- _ =>
      lazymatch goal with
      | _ : timer_ok _ t |- _ => fail
      | _ => assert (timer_ok _ t) by exact (Hts t Ht)
      end
  end.

Ltac use_room_timers H :=
  repeat match goal with
  | E : ?m !! ?k = Some ?r |- _ =>
      lazymatch goal with
      | _ : room_timers_ok _ k r |- _ => fail
      | _ => assert (room_timers_ok _ k r) by exact (H k r E)
      end
  end.

Ltac solve_timer :=
  unfold timer_ok, room_timers_ok in *;
  cbn [rooms socketRoomMap timers nextHandle handle delayMs callback delayOf] in *;
  room_simpl; break_hyps; subst;
  cbn [rooms socketRoomMap timers nextHandle handle delayMs callback delayOf] in *;
  repeat match goal with
  | Hx : forall h, Some ?a = Some h -> _ |- _ => specialize (Hx a eq_refl)
  | Hx : forall h, ?x = Some h -> _, E : ?x = Some ?a |- _ => specialize (Hx a E)
  end;
  break_hyps;
  first [ lia | reflexivity | congruence
        | split; [lia|first [assumption|reflexivity]]
        | match goal with
          | Hx : forall t, t ∈ ?ts -> handle t = _ -> callback t = _,
            Ht : ?t ∈ ?ts |- callback ?t = _ =>
              apply (Hx t Ht); first [reflexivity|assumption|lia]
          end
        | exfalso; lia ].

Ltac timers_goal Hts H :=
  split;
  [ intros tmr Htmr; split_pending; use_timers Hts; solve_timer
  | repeat first [ apply map_Forall_insert_2 | apply map_Forall_delete ];
    try (intros rid' room' Hrid'; specialize (H rid' room' Hrid'));
    try (use_room_timers H);
    (split; intros hdl Hhdl; room_simpl; simplify_eq;
     (split; [solve_timer
             |intros tmr Htmr Hhandle; split_pending; use_timers Hts; solve_timer])) ].

Ltac timers_by_cases Hts H :=
  run_handler; map_cases; simplify_eq;
  rewrite ?insert_insert_eq, ?delete_insert_eq;
  timers_goal Hts H.

Lemma handle_event_timers_ok toLowerCase e s :
  timers_ok s -> timers_ok (exec (handle_event toLowerCase e) s).
Proof.
  destruct s as [rs sm ts nh]. unfold timers_ok.
  cbn [rooms socketRoomMap timers nextHandle]. intros [Hts H].
  destruct e; unfold handle_event.
  - unfold joinRoom.
    generalize (or_else (trim roomId) randomId) as target.
    generalize (or_else (trim nickname) anonymousNick) as nick.
    intros nick target. timers_by_cases Hts H.
  - unfold setCategory. timers_by_cases Hts H.
  - unfold startGame, startRound. timers_by_cases Hts H.
  - unfold drawRelay. timers_by_cases Hts H.
  - unfold clearCanvasRelay. timers_by_cases Hts H.
  - unfold answer. timers_by_cases Hts H.
  - unfold chatMessage. timers_by_cases Hts H.
  - unfold disconnect. timers_by_cases Hts H.
  - unfold fireTimer, runCallback, hintCallback, timeoutCallback, startRound.
    timers_by_cases Hts H.
Qed.

Lemma reachable_timers_ok toLowerCase allowed s :
  reachable_by toLowerCase allowed s -> timers_ok s.
Proof.
  induction 1 as [|s e _ IH _].
  - split; [intros t Ht; inversion Ht|apply map_Forall_empty].
  - apply handle_event_timers_ok. exact IH.
Qed.

(** X19. In a reachable state every pending timer was scheduled with the
    delay of its kind: half the round's duration for a hint timer, the
    round's duration for a round timer, 3000 ms for the cooldown before the
    next round.  The handles a registered room stores name no pending timer
    but that room's own round timer and hint timer, so that
    [clearRoomTimers] cancels nothing else. *)
Theorem pending_timers_are_well_formed toLowerCase s :
  reachable toLowerCase s ->
  (forall t, t ∈ timers s ->
     (handle t < nextHandle s)%nat /\ delayMs t = delayOf (callback t))
  /\ (forall roomId room h t,
        rooms s !! roomId = Some room -> t ∈ timers s -> handle t = h ->
        (Room.timerId room = Some h -> callback t = TimeoutCallback roomId)
        /\ (Room.hintTimerId room = Some h -> callback t = HintCallback roomId)).
Proof.
  intros Hreach.
  destruct (reachable_timers_ok _ _ _ Hreach) as [Hts Hrooms].
  split; [exact Hts|].
  intros roomId room h t Hroom Ht Hh.
  destruct (Hrooms roomId room Hroom) as [Hround Hhint].
  split; intros Hid.
  - exact (proj2 (Hround h Hid) t Ht Hh).
  - exact (proj2 (Hhint h Hid) t Ht Hh).
Qed.

Ltac keep_pending Hcd :=
  repeat first
    [ assumption
    | apply elem_of_app; left
    | apply list_elem_of_filter; split ];
  try match goal with
  | |- handle ?t <> ?h =>
      let Heq := fresh "Heq" in
      intros Heq;
      repeat match goal with
      | Hr : room_timers_ok _ _ _ |- _ =>
          let Hr1 := fresh "Hr" in
          let Hr2 := fresh "Hr" in
          destruct Hr as [Hr1 Hr2];
          try (let Hcb := fresh "Hcb" in
               destruct (Hr1 _ ltac:(eassumption)) as [_ Hcb];
               specialize (Hcb t ltac:(assumption) Heq); congruence);
          try (let Hcb := fresh "Hcb" in
               destruct (Hr2 _ ltac:(eassumption)) as [_ Hcb];
               specialize (Hcb t ltac:(assumption) Heq); congruence)
      end
  end.

Ltac cooldown_by_cases H :=
  run_handler; map_cases; simplify_eq; use_room_timers H;
  cbn [rooms socketRoomMap timers nextHandle] in *.

Lemma cooldown_stays_pending toLowerCase e s t roomId :
  timers_ok s ->
  t ∈ timers s -> callback t = CooldownCallback roomId ->
  ~ fires e (handle t) ->
  t ∈ timers (exec (handle_event toLowerCase e) s).
Proof.
  destruct s as [rs sm ts nh]. unfold timers_ok.
  cbn [rooms socketRoomMap timers nextHandle]. intros [Hts H] Ht Hcd Hfire.
  destruct e; unfold handle_event.
  - unfold joinRoom.
    generalize (or_else (trim roomId0) randomId) as target.
    generalize (or_else (trim nickname) anonymousNick) as nick.
    intros nick target. cooldown_by_cases H; keep_pending Hcd.
  - unfold setCategory. cooldown_by_cases H; keep_pending Hcd.
  - unfold startGame, startRound. cooldown_by_cases H; keep_pending Hcd.
  - unfold drawRelay. cooldown_by_cases H; keep_pending Hcd.
  - unfold clearCanvasRelay. cooldown_by_cases H; keep_pending Hcd.
  - unfold answer. cooldown_by_cases H; keep_pending Hcd.
  - unfold chatMessage. cooldown_by_cases H; keep_pending Hcd.
  - unfold disconnect. cooldown_by_cases H; keep_pending Hcd.
  - assert (Hh : handle t <> h) by (intros <-; apply Hfire; exists k; reflexivity).
    unfold fireTimer, runCallback, hintCallback, timeoutCallback, startRound.
    cooldown_by_cases H; keep_pending Hcd.
Qed.

(** X20. No handler cancels a cooldown timer: in a reachable state, a
    pending timer that is to call [startRound] after the 3000 ms pause is
    still pending after any event other than its own firing; a [startGame]
    or a room's removal during the pause leaves it scheduled. *)
Theorem cooldown_timer_is_never_cancelled toLowerCase s e t roomId :
  reachable toLowerCase s ->
  t ∈ timers s -> callback t = CooldownCallback roomId ->
  ~ fires e (handle t) ->
  t ∈ timers (exec (handle_event toLowerCase e) s).
Proof.
  intros Hreach. apply cooldown_stays_pending.
  exact (reachable_timers_ok _ _ _ Hreach).
Qed.

(** ** Where broadcasts go *)

Ltac target_by_cases :=
  run_handler; intros Hin; in_output Hin; simplify_eq;
  first [ solve [left; repeat first [ apply list_elem_of_here
                                    | apply list_elem_of_further ]]
        | right; eexists; reflexivity ].

(** X21. Whatever the state, what an event broadcasts with [io.to] goes to
    a room the event is addressed to; the one exception is the secret word,
    which goes to a connection.  So nothing is ever broadcast to a room
    other than the sender's (or the one it joins, or the timer's). *)
Theorem broadcasts_go_to_addressed_rooms toLowerCase e s target p :
  io_to_emit target p ∈ output (handle_event toLowerCase e) s ->
  target ∈ addressed s e \/ exists w, p = wordForDrawer w.
Proof.
  destruct s as [rs sm ts nh].
  unfold addressed, pendingCallback. cbn [rooms socketRoomMap timers].
  destruct e; unfold handle_event.
  - unfold joinRoom.
    generalize (or_else (trim roomId) randomId) as tgt.
    generalize (or_else (trim nickname) anonymousNick) as nick.
    intros nick tgt. target_by_cases.
  - unfold setCategory. target_by_cases.
  - unfold startGame, startRound. target_by_cases.
  - unfold drawRelay. target_by_cases.
  - unfold clearCanvasRelay. target_by_cases.
  - unfold answer. target_by_cases.
  - unfold chatMessage. target_by_cases.
  - unfold disconnect. target_by_cases.
  - unfold fireTimer, runCallback, hintCallback, timeoutCallback, startRound.
    target_by_cases.
Qed.

(** ** Rosters between joins and disconnects *)

Ltac roster_by_cases :=
  run_handler; map_cases; intros; simplify_eq; room_simpl;
  rewrite ?Obj_keys_alter; reflexivity.

(** X22. Through an event that is neither a join nor a disconnect, a room
    that stays registered keeps the keys of its roster, in their order:
    guesses, rounds and timers never change who is in a room nor the order
    in which the players draw. *)
Theorem roster_changes_only_by_join_or_disconnect toLowerCase s e roomId room room' :
  ~ changes_roster e ->
  rooms s !! roomId = Some room ->
  rooms (exec (handle_event toLowerCase e) s) !! roomId = Some room' ->
  Obj.keys (Room.players room') = Obj.keys (Room.players room).
Proof.
  destruct s as [rs sm ts nh]. cbn [rooms socketRoomMap].
  intros Hno Hroom. revert room'.
  destruct e; unfold handle_event; cbn [changes_roster] in Hno;
    try (exfalso; apply Hno; exact I).
  - unfold setCategory. roster_by_cases.
  - unfold startGame, startRound. roster_by_cases.
  - unfold drawRelay. roster_by_cases.
  - unfold clearCanvasRelay. roster_by_cases.
  - unfold answer. roster_by_cases.
  - unfold chatMessage. roster_by_cases.
  - unfold fireTimer, runCallback, hintCallback, timeoutCallback, startRound.
    roster_by_cases.
Qed.

(** ** Category and chat *)

(** X23. [setCategory] from a connection bound to a registered room sets
    that room's category to the string received, or to "food" when it is
    empty, and broadcasts the room state; the string is not checked against
    the word lists, the sender need not be a player, and a round in progress
    keeps its word and its drawer. *)
Theorem setCategory_sets_category s sid cat roomId room :
  socketRoomMap s !! sid = Some roomId -> roomId <> [] ->
  rooms s !! roomId = Some room ->
  let room' := Room.set_category (or_else cat (lit "food")) room in
  setCategory sid cat s
  = (tt,
     mkState (<[roomId := room']> (rooms s)) (socketRoomMap s) (timers s)
       (nextHandle s),
     [io_to_emit roomId (roomStateOf room')])
  /\ Room.category room' <> []
  /\ Room.currentWord room' = Room.currentWord room
  /\ Room.drawerId room' = Room.drawerId room
  /\ Room.roundActive room' = Room.roundActive room.
Proof.
  destruct s as [rs sm ts nh]. cbn [rooms socketRoomMap timers nextHandle].
  intros Hsess Hne Hroom. cbv zeta.
  destruct roomId as [|c r]; [congruence|].
  split; [|split; [apply or_else_nonempty; discriminate|repeat split]].
  unfold setCategory. unfold_monad. simpl. rewrite Hsess. simpl.
  rewrite Hroom. simpl. rewrite lookup_insert_eq. reflexivity.
Qed.

(** X24. [chatMessage] never changes the state and emits one message at
    most: a [chat] to the room the sender is bound to, under the nickname
    stored for the sender in that room, with the text as received (not
    trimmed, possibly empty) and [correct: false].  A sender that is not a
    player of a registered room gets nothing relayed. *)
Theorem chatMessage_relays_verbatim s sid message :
  exec (chatMessage sid message) s = s
  /\ (length (output (chatMessage sid message) s) <= 1)%nat
  /\ (forall eff, eff ∈ output (chatMessage sid message) s ->
        exists roomId room player,
          socketRoomMap s !! sid = Some roomId
          /\ rooms s !! roomId = Some room
          /\ Obj.get sid (Room.players room) = Some player
          /\ eff = io_to_emit roomId (chat (Player.nickname player) message false))
  /\ (forall roomId room player,
        socketRoomMap s !! sid = Some roomId -> roomId <> [] ->
        rooms s !! roomId = Some room ->
        Obj.get sid (Room.players room) = Some player ->
        output (chatMessage sid message) s
        = [io_to_emit roomId (chat (Player.nickname player) message false)]).
Proof.
  destruct s as [rs sm ts nh]. cbn [rooms socketRoomMap].
  unfold chatMessage. unfold_monad. simpl.
  destruct (sm !! sid) as [[|c r]|] eqn:Hsess; simpl.
  - repeat split; try lia; [intros eff Hin; inversion Hin|].
    intros roomId room player Hb Hne. congruence.
  - destruct (rs !! (c :: r)) as [room|] eqn:Hroom; simpl.
    + destruct (Obj.get sid (Room.players room)) as [player|] eqn:Hp; simpl.
      * repeat split; try lia.
        -- intros eff Hin. apply list_elem_of_singleton in Hin as ->.
           exists (c :: r), room, player. auto.
        -- intros roomId room0 player0 Hb _ Hr Hp0. congruence.
      * repeat split; try lia; [intros eff Hin; inversion Hin|].
        intros roomId room0 player0 Hb _ Hr Hp0. congruence.
    + repeat split; try lia; [intros eff Hin; inversion Hin|].
      intros roomId room0 player0 Hb _ Hr. congruence.
  - repeat split; try lia; [intros eff Hin; inversion Hin|].
    intros roomId room player Hb. discriminate.
Qed.

(** * Concrete runs *)

(** A state given as a run from [initialState] is reachable: one
    [reachable_step] per event, each event being checked against what is
    allowed on the state it meets. *)
Ltac by_running :=
  unfold reachable, demoStateGuessed, demoState, loneState, demoEvents;
  cbn [runEvents fold_left];
  repeat apply reachable_step; try apply reachable_init;
  cbn [within_design]; try exact I;
  intros prev room Hb; vm_compute in Hb; discriminate.

Lemma active_round_has_word_and_drawer_witness :
  (exists d, Room.drawerId demoRoom = Some d)
  /\ ((forall s e, within_design s e -> within_design s e) ->
      (exists w, Room.currentWord demoRoom = Some w /\ w <> [])
      /\ exists d, Room.drawerId demoRoom = Some d
                   /\ d ∈ Obj.keys (Room.players demoRoom)).
Proof.
  apply (active_round_has_word_and_drawer asciiLower within_design demoState
           roomR1 demoRoom).
  - by_running.
  - vm_compute. reflexivity.
  - reflexivity.
Defined.

Lemma scores_are_multiples_of_10_witness :
  exists n, 0 <= n /\ Player.score (Player.mk clientB (lit "Bob") 10) = 10 * n.
Proof.
  refine (proj1 (scores_are_multiples_of_10 asciiLower demoStateGuessed _)
           roomR1
           (Room.set_roundActive false
              (Room.set_players (Obj.alter (Player.add_score 10) clientB) demoRoom))
           clientB _ _ _).
  - by_running.
  - vm_compute. reflexivity.
  - vm_compute. reflexivity.
Defined.

Lemma answer_evaluates_guess_witness :
  answer asciiLower clientB demoGuess demoState
  = (tt,
     mkState
       (<[roomR1 :=
            Room.set_roundActive false
              (Room.set_players (Obj.alter (Player.add_score 10) clientB)
                 demoRoom)]> (rooms demoState))
       (socketRoomMap demoState)
       (timers demoState
        ++ [mkTimer (nextHandle demoState) COOLDOWN_MS (CooldownCallback roomR1)])
       (S (nextHandle demoState)),
     [ io_to_emit roomR1
         (answerResult true clientB (lit "Bob") [0xC0AC; 0xACFC] (0 + 10));
       io_to_emit roomR1 (roundEnded (lit "Bob" ++ guessedSuffix) 1);
       io_to_emit roomR1 clearCanvas;
       io_to_emit roomR1 (hintUpdated []);
       io_to_emit roomR1
         (roomStateOf
            (Room.set_roundActive false
               (Room.set_players (Obj.alter (Player.add_score 10) clientB)
                  demoRoom))) ]).
Proof.
  refine (proj1 (proj1 (proj2
    (answer_evaluates_guess asciiLower demoState clientB demoGuess roomR1
       demoRoom (Player.mk clientB (lit "Bob") 0) [0xC0AC; 0xACFC]
       _ _ _ _ _ _ _ _)) _ _)).
  - vm_compute. reflexivity.
  - discriminate.
  - vm_compute. reflexivity.
  - vm_compute. reflexivity.
  - vm_compute. discriminate.
  - reflexivity.
  - reflexivity.
  - discriminate.
  - vm_compute. discriminate.
  - vm_compute. reflexivity.
Defined.

Lemma room_removal_cancels_no_timer_witness :
  ((exists sid, EvDisconnect clientA = EvDisconnect sid)
   /\ timers (exec (handle_event asciiLower (EvDisconnect clientA)) loneState)
      = timers loneState
   /\ nextHandle (exec (handle_event asciiLower (EvDisconnect clientA)) loneState)
      = nextHandle loneState)
  /\ (forall s1 h k cb,
        pendingCallback h s1 = Some cb -> callbackRoom cb = roomR1 ->
        rooms s1 !! roomR1 = None ->
        fireTimer h k s1
        = (tt, mkState (rooms s1) (socketRoomMap s1) (cancel h (timers s1))
                 (nextHandle s1), [])).
Proof.
  apply (room_removal_cancels_no_timer asciiLower loneState
           (EvDisconnect clientA) roomR1 loneRoom).
  - vm_compute. reflexivity.
  - vm_compute. reflexivity.
Defined.


Lemma startRound_game_over_witness :
  startRound roomR1 0 lastRoundState
  = (tt,
     mkState (<[roomR1 := endedRoom lastRoundRoom]> (rooms lastRoundState))
       (socketRoomMap lastRoundState)
       (cancelIfSet (Some 8%nat) (cancelIfSet (Some 9%nat) (timers lastRoundState)))
       11%nat,
     [ io_to_emit roomR1
         (gameEnded [ Player.mk clientA (lit "Alice") 30;
                      Player.mk clientB (lit "Bob") 20 ]);
       io_to_emit roomR1 clearCanvas;
       io_to_emit roomR1 (hintUpdated []);
       io_to_emit roomR1
         (roomState [ Player.mk clientA (lit "Alice") 30;
                      Player.mk clientB (lit "Bob") 20 ]
            None (5 + 1) 5 (lit "food") false) ]).
Proof.
  refine (proj1 (startRound_game_over asciiLower lastRoundState roomR1 0
                   lastRoundRoom _ _ _)).
  - vm_compute. reflexivity.
  - discriminate.
  - vm_compute. reflexivity.
Defined.

(** Carol, who never joined a room, sends a guess. *)
Lemma dangling_reference_is_noop_witness :
  handle_event asciiLower (EvAnswer clientC (lit "apple")) demoState
  = (tt, demoState, []).
Proof.
  refine (proj1 (dangling_reference_is_noop asciiLower demoState
                   (EvAnswer clientC (lit "apple")) _ _)).
  - by_running.
  - vm_compute. exact I.
Defined.

(** ** Concrete runs of the further properties *)

Lemma chooseNextDrawerId_hands_over_witness :
  exists next,
    chooseNextDrawerId demoRoom = Some next
    /\ next ∈ Obj.keys (Room.players demoRoom)
    /\ next <> clientA.
Proof.
  apply (chooseNextDrawerId_hands_over demoRoom clientA).
  - cbn. repeat (apply NoDup_cons; split;
      [rewrite ?elem_of_cons, elem_of_nil; intros H; vm_compute in H;
       intuition discriminate|]).
    apply NoDup_nil. exact I.
  - cbn. repeat constructor; discriminate.
  - simpl. lia.
  - reflexivity.
  - cbn. apply list_elem_of_here.
Defined.

Lemma startRound_starts_round_witness :
  startRound roomR1 0 lobbyState = roundStart roomR1 0 lobbyRoom lobbyState.
Proof.
  refine (proj1 (startRound_starts_round lobbyState roomR1 0 lobbyRoom _ _ _)).
  - vm_compute. reflexivity.
  - discriminate.
  - vm_compute. discriminate.
Defined.

Lemma startGame_starts_round_one_witness :
  rooms (exec (startGame clientA 0) lobbyState)
  = <[roomR1 := startedRoom (resetRoom lobbyRoom) 0 (nextHandle lobbyState)]>
      (rooms lobbyState).
Proof.
  refine (proj1 (proj2 (startGame_starts_round_one lobbyState clientA 0 roomR1
                          lobbyRoom _ _ _) _ _ _)).
  - vm_compute. reflexivity.
  - discriminate.
  - vm_compute. reflexivity.
  - reflexivity.
  - discriminate.
  - vm_compute. discriminate.
Defined.

Lemma wordForDrawer_goes_to_drawer_witness :
  exists roomId room,
    rooms (exec (handle_event asciiLower (EvStartGame clientA 0)) lobbyState)
      !! roomId = Some room
    /\ Room.roundActive room = true
    /\ Room.drawerId room = Some clientA
    /\ Room.currentWord room = Some [0xC0AC; 0xACFC]
    /\ clientA <> [].
Proof.
  apply (wordForDrawer_goes_to_drawer asciiLower (EvStartGame clientA 0)
           lobbyState clientA [0xC0AC; 0xACFC]).
  vm_compute.
  repeat first [apply list_elem_of_here | apply list_elem_of_further].
Defined.

Lemma round_timer_ends_active_round_only_witness :
  fireTimer 1%nat 0 demoState
  = if Room.roundActive demoRoom then
      (tt,
       mkState (<[roomR1 := Room.set_roundActive false demoRoom]> (rooms demoState))
         (socketRoomMap demoState)
         (cancel 1%nat (timers demoState)
          ++ [mkTimer (nextHandle demoState) COOLDOWN_MS (CooldownCallback roomR1)])
         (S (nextHandle demoState)),
       [ io_to_emit roomR1 (roundEnded timeIsUpText (Room.round demoRoom));
         io_to_emit roomR1 clearCanvas;
         io_to_emit roomR1 (hintUpdated []);
         io_to_emit roomR1 (roomStateOf (Room.set_roundActive false demoRoom)) ])
    else
      (tt,
       mkState (rooms demoState) (socketRoomMap demoState)
         (cancel 1%nat (timers demoState)) (nextHandle demoState),
       []).
Proof.
  apply (round_timer_ends_active_round_only demoState 1%nat 0 roomR1 demoRoom).
  - vm_compute. reflexivity.
  - vm_compute. reflexivity.
Defined.

Lemma hint_timer_reveals_consonants_witness :
  fireTimer 0%nat 0 demoState
  = (tt,
     mkState (rooms demoState) (socketRoomMap demoState)
       (cancel 0%nat (timers demoState)) (nextHandle demoState),
     match Room.roundActive demoRoom, Room.currentWord demoRoom with
     | true, Some (c :: w) =>
         [io_to_emit roomR1 (hintUpdated (makeChosungHint (c :: w)))]
     | _, _ => []
     end).
Proof.
  apply (hint_timer_reveals_consonants demoState 0%nat 0 roomR1 demoRoom).
  - vm_compute. reflexivity.
  - vm_compute. reflexivity.
Defined.

(** Bob chats before any game has started. *)
Lemma answer_outside_round_is_chat_witness :
  answer asciiLower clientB (lit " hi ") lobbyState
  = (tt, lobbyState,
     [io_to_emit roomR1
        (chat (Player.nickname (Player.mk clientB (lit "Bob") 0))
           (trim (lit " hi ")) false)]).
Proof.
  refine (proj2 (answer_outside_round_is_chat asciiLower lobbyState clientB
                   (lit " hi ") roomR1 lobbyRoom (Player.mk clientB (lit "Bob") 0)
                   _ _ _ _) _ _).
  - vm_compute. reflexivity.
  - discriminate.
  - vm_compute. reflexivity.
  - vm_compute. reflexivity.
  - vm_compute. discriminate.
  - left. reflexivity.
Defined.

(** Bob, who is guessing, disconnects during round 1. *)
Lemma disconnect_leaves_room_witness :
  disconnect clientB demoState
  = (tt,
     mkState
       (<[roomR1 := Room.set_players (Obj.delete clientB) demoRoom]>
          (rooms demoState))
       (delete clientB (socketRoomMap demoState))
       (timers demoState) (nextHandle demoState),
     [ io_to_emit roomR1 (systemMessage (lit "Bob" ++ leftSuffix));
       io_to_emit roomR1
         (roomStateOf (Room.set_players (Obj.delete clientB) demoRoom)) ]).
Proof.
  refine (proj1 (disconnect_leaves_room demoState clientB roomR1 demoRoom _ _ _)).
  - vm_compute. reflexivity.
  - discriminate.
  - vm_compute. reflexivity.
Defined.

(** Alice, first in r1 and drawing, joins r1 again. *)
Lemma joinRoom_joiner_goes_last_witness :
  Obj.keys
    (rosterOf (exec (joinRoom clientA roomR1 (lit "Alice") []) demoState)
       (or_else (trim roomR1) []))
  = Obj.keys (Obj.delete clientA (rosterOf demoState (or_else (trim roomR1) [])))
    ++ [clientA].
Proof.
  refine (proj1 (joinRoom_joiner_goes_last asciiLower demoState clientA roomR1
                   (lit "Alice") [] _ _)).
  - by_running.
  - vm_compute. discriminate.
Defined.

Lemma player_of_one_room_witness :
  socketRoomMap demoState !! clientB = Some roomR1.
Proof.
  refine (proj1 (proj2 (player_of_one_room asciiLower demoState _))
            roomR1 demoRoom clientB _ _ _).
  - by_running.
  - vm_compute. reflexivity.
  - discriminate.
  - vm_compute.
    repeat first [apply list_elem_of_here | apply list_elem_of_further].
Defined.

Lemma registered_records_are_well_formed_witness : record_ok roomR1 demoRoom.
Proof.
  apply (registered_records_are_well_formed asciiLower demoState roomR1 demoRoom).
  - by_running.
  - vm_compute. reflexivity.
Defined.

(** Bob's right guess ends round 1 and leaves the counter at 1. *)
Lemma round_counter_step_witness :
  Room.id guessedRoom = Room.id demoRoom
  /\ Room.maxRounds guessedRoom = Room.maxRounds demoRoom
  /\ Room.round demoRoom <= Room.round guessedRoom <= Room.round demoRoom + 1.
Proof.
  apply (round_counter_step asciiLower demoState (EvAnswer clientB demoGuess)
           roomR1 demoRoom guessedRoom).
  - vm_compute. reflexivity.
  - intros (sid & k & Heq & _). discriminate Heq.
  - vm_compute. reflexivity.
Defined.

Lemma pending_timers_are_well_formed_witness :
  (forall t, t ∈ timers demoState ->
     (handle t < nextHandle demoState)%nat /\ delayMs t = delayOf (callback t))
  /\ (forall roomId room h t,
        rooms demoState !! roomId = Some room -> t ∈ timers demoState ->
        handle t = h ->
        (Room.timerId room = Some h -> callback t = TimeoutCallback roomId)
        /\ (Room.hintTimerId room = Some h -> callback t = HintCallback roomId)).
Proof.
  apply (pending_timers_are_well_formed asciiLower demoState).
  by_running.
Defined.

(** Alice starts a new game during the pause after Bob's right guess: the
    cooldown timer of the round that ended stays scheduled. *)
Lemma cooldown_timer_is_never_cancelled_witness :
  mkTimer 2%nat COOLDOWN_MS (CooldownCallback roomR1)
  ∈ timers (exec (handle_event asciiLower (EvStartGame clientA 7))
              demoStateGuessed).
Proof.
  apply (cooldown_timer_is_never_cancelled asciiLower demoStateGuessed
           (EvStartGame clientA 7)
           (mkTimer 2%nat COOLDOWN_MS (CooldownCallback roomR1)) roomR1).
  - by_running.
  - vm_compute.
    repeat first [apply list_elem_of_here | apply list_elem_of_further].
  - reflexivity.
  - intros [k Heq]. discriminate Heq.
Defined.

(** Bob's right guess: the canvas is cleared in r1, his room. *)
Lemma broadcasts_go_to_addressed_rooms_witness :
  roomR1 ∈ addressed demoState (EvAnswer clientB demoGuess)
  \/ exists w, clearCanvas = wordForDrawer w.
Proof.
  apply (broadcasts_go_to_addressed_rooms asciiLower (EvAnswer clientB demoGuess)
           demoState roomR1 clearCanvas).
  vm_compute.
  repeat first [apply list_elem_of_here | apply list_elem_of_further].
Defined.

Lemma roster_changes_only_by_join_or_disconnect_witness :
  Obj.keys (Room.players guessedRoom) = Obj.keys (Room.players demoRoom).
Proof.
  apply (roster_changes_only_by_join_or_disconnect asciiLower demoState
           (EvAnswer clientB demoGuess) roomR1 demoRoom guessedRoom).
  - intros H. exact H.
  - vm_compute. reflexivity.
  - vm_compute. reflexivity.
Defined.

(** Bob, who is not drawing, switches r1 to animals during round 1. *)
Lemma setCategory_sets_category_witness :
  setCategory clientB (lit "animal") demoState
  = (tt,
     mkState
       (<[roomR1 := Room.set_category (or_else (lit "animal") (lit "food")) demoRoom]>
          (rooms demoState))
       (socketRoomMap demoState) (timers demoState) (nextHandle demoState),
     [io_to_emit roomR1
        (roomStateOf
           (Room.set_category (or_else (lit "animal") (lit "food")) demoRoom))]).
Proof.
  refine (proj1 (setCategory_sets_category demoState clientB (lit "animal")
                   roomR1 demoRoom _ _ _)).
  - vm_compute. reflexivity.
  - discriminate.
  - vm_compute. reflexivity.
Defined.
